(** * claippy: the conversation/context state machine and the message segmenter

    A shallow embedding of [src/src/model.rs] (Conversation, WorkspaceContext,
    Artifact) and of the segmentation side of [src/src/command.rs]
    ([handle_query], [parse_message_parts]).

    Text handled by the segmenter is a [list ascii] ([text]); the regular
    expressions of the source are written out as the first-match scanners
    that the regex engine's leftmost-first semantics amounts to.  A text is
    read as the UTF-8 bytes of the Rust string; the REPL's white-space
    handling decodes the multi-byte white-space characters. *)

From Stdlib Require Import Ascii String List.
From stdpp Require Import base gmap sets list strings countable.
Import ListNotations.

Open Scope list_scope.

(* ------------------------------------------------------------------------ *)
(** ** Shared data types *)

Definition text := list ascii.

(** A string literal as text. *)
Definition s2l (s : string) : text := list_ascii_of_string s.

Definition infix (p l : text) : Prop := exists a b, l = a ++ p ++ b.

(** The double quote and the newline character. *)
Definition dq : ascii := "034"%char.
Definition nl : ascii := "010"%char.

(** [Result<T>] with a boxed error; the error is only carried around. *)
Inductive result (A : Type) :=
| Ok (a : A)
| Err (e : string).
Arguments Ok {A} a.
Arguments Err {A} e.

(* ------------------------------------------------------------------------ *)
(** ** model.rs *)

Record Message := { role : string; content : text }.

Record Artifact := {
  art_id : text;
  art_language : option text;
  art_src : option text;
  art_text : text
}.

Record RichMessage := { message : Message; artifact : option Artifact }.

Definition USER_ROLE : string := "user".
Definition ASSISTANT_ROLE : string := "assistant".

Module WorkspaceContext.
Inductive t :=
| File (path : string)
| Url (url : string).

#[global] Instance t_eq_dec : EqDecision t.
Proof. solve_decision. Defined.

Definition encode (w : t) : string + string :=
  match w with File p => inl p | Url u => inr u end.
Definition decode (x : string + string) : t :=
  match x with inl p => File p | inr u => Url u end.

#[global] Instance t_countable : Countable t.
Proof. apply (inj_countable' encode decode). intros []; reflexivity. Defined.

(** [impl From<String> for WorkspaceContext] *)
Definition from (raw : string) : t :=
  if String.prefix "http://" raw || String.prefix "https://" raw
  then Url raw else File raw.

(** [retrieve]: the file read / URL fetch is the external [fetch]; the
    result is wrapped in a [ClaippyContext] element. *)
Definition retrieve (fetch : t -> result text) (w : t) : result text :=
  let src := match w with File p => p | Url u => u end in
  match fetch w with
  | Err e => Err e
  | Ok contents =>
      Ok (s2l "<ClaippyContext src=" ++ [dq] ++ s2l src ++ [dq] ++ s2l ">"
          ++ contents ++ s2l "</ClaippyContext>")
  end.
(** [impl ToString for WorkspaceContext] *)
Definition to_string (w : t) : string :=
  match w with File path => path | Url url => url end.
End WorkspaceContext.

Abbreviation WorkspaceContext := WorkspaceContext.t.

Record Conversation := {
  id : string;
  unseen_context : gset WorkspaceContext;
  seen_context : gset WorkspaceContext;
  messages : list RichMessage
}.

Definition set_contexts (c : Conversation) (unseen seen : gset WorkspaceContext)
  : Conversation :=
  {| id := id c; unseen_context := unseen; seen_context := seen;
     messages := messages c |}.

Definition set_messages (c : Conversation) (ms : list RichMessage) : Conversation :=
  {| id := id c; unseen_context := unseen_context c;
     seen_context := seen_context c; messages := ms |}.

Definition empty (i : string) : Conversation :=
  {| id := i; unseen_context := ∅; seen_context := ∅; messages := [] |}.

(** [add_workspace_contexts]: every raw string is inserted into
    [unseen_context]; the method returns [Ok(())]. *)
Definition add_workspace_contexts (c : Conversation) (raw_contexts : list string)
  : Conversation * result unit :=
  (fold_left (fun c raw =>
      set_contexts c ({[WorkspaceContext.from raw]} ∪ unseen_context c)
                   (seen_context c))
    raw_contexts c, Ok tt).

(** [clear]: messages emptied, [unseen.extend(seen.drain())]. *)
Definition clear (c : Conversation) : Conversation * result unit :=
  ({| id := id c; unseen_context := unseen_context c ∪ seen_context c;
      seen_context := ∅; messages := [] |}, Ok tt).

Definition user_message (content : text) : RichMessage :=
  {| message := {| role := USER_ROLE; content := content |}; artifact := None |}.

(** The body of [for context in self.unseen_context.drain()]: the contexts
    in the drain's iteration order, the message being built and the seen
    set.  On an error the loop is left by [?]. *)
Fixpoint drain_loop (fetch : WorkspaceContext -> result text)
    (ctxs : list WorkspaceContext) (um : text) (seen : gset WorkspaceContext)
  : text * gset WorkspaceContext * result unit :=
  match ctxs with
  | [] => (um, seen, Ok tt)
  | ctx :: rest =>
      match WorkspaceContext.retrieve fetch ctx with
      | Err e => (um, seen, Err e)
      | Ok w => drain_loop fetch rest (um ++ w ++ [nl]) ({[ctx]} ∪ seen)
      end
  end.

(** [add_user_message].  [HashSet::drain] empties [unseen_context] whether
    or not the iterator is consumed to the end (the remaining elements are
    dropped with it), so [unseen_context] is empty on both outcomes.  The
    iteration order of the hash set is unspecified; [elements] fixes one. *)
Definition add_user_message (fetch : WorkspaceContext -> result text)
    (c : Conversation) (msg : text) : Conversation * result unit :=
  let '(um, seen', r) := drain_loop fetch (elements (unseen_context c)) [] (seen_context c) in
  let c1 := set_contexts c ∅ seen' in
  match r with
  | Err e => (c1, Err e)
  | Ok _ => (set_messages c1 (messages c1 ++ [user_message (um ++ msg)]), Ok tt)
  end.

(** [add_assistant_message(message, artifact)] of model.rs. *)
Definition add_assistant_message (c : Conversation) (msg : text)
    (art : option Artifact) : Conversation :=
  set_messages c (messages c ++
    [{| message := {| role := ASSISTANT_ROLE; content := msg |}; artifact := art |}]).

Definition as_message_refs (c : Conversation) : list Message :=
  map message (messages c).

(* ------------------------------------------------------------------------ *)
(** ** command.rs: the segmenter [parse_message_parts] *)

(** [model::MessageParts] (used by command.rs). *)
Module MessageParts.
Inductive t :=
| Markdown (s : text)
| Artifact (identifier : text) (language : option text) (content : text).
End MessageParts.
Abbreviation MessageParts := MessageParts.t.

Definition CLAIPPY_ARTIFACT : text := s2l "ClaippyArtifact".
Definition open_tag : text := "<"%char :: CLAIPPY_ARTIFACT.
Definition close_tag : text := s2l "</" ++ CLAIPPY_ARTIFACT ++ [">"%char].

(** [strip_prefix p l = Some r] iff [l = p ++ r]. *)
Fixpoint strip_prefix (p l : text) : option text :=
  match p, l with
  | [], _ => Some l
  | a :: p', b :: l' => if ascii_dec a b then strip_prefix p' l' else None
  | _ :: _, [] => None
  end.

(** The class [\s] on ASCII bytes.  In the artifact regex [\s*] only
    decides where the attribute capture starts, and the attributes are then
    searched for [identifier="..."] and [language="..."] anywhere, so the
    bytes of a multi-byte white-space character left in the capture change
    no output. *)
Definition is_space (c : ascii) : bool :=
  match nat_of_ascii c with
  | 9 | 10 | 11 | 12 | 13 | 32 => true
  | _ => false
  end.

(** Greedy [\s*]. *)
Fixpoint skip_ws (l : text) : text :=
  match l with
  | c :: l' => if is_space c then skip_ws l' else l
  | [] => []
  end.

(** [[^d]*] followed by [d]: the text up to the first [d] and the text after
    it, if there is a [d]. *)
Fixpoint take_until (d : ascii) (l : text) : option (text * text) :=
  match l with
  | [] => None
  | c :: l' =>
      if ascii_dec c d then Some ([], l')
      else match take_until d l' with
           | Some (pre, post) => Some (c :: pre, post)
           | None => None
           end
  end.

(** Lazy [(.*?)] followed by [needle] (flag [s]: [.] takes newlines): the
    text before the first occurrence of [needle] and the text after it. *)
Fixpoint find_sub (needle l : text) : option (text * text) :=
  match strip_prefix needle l with
  | Some r => Some ([], r)
  | None =>
      match l with
      | [] => None
      | c :: l' =>
          match find_sub needle l' with
          | Some (pre, post) => Some (c :: pre, post)
          | None => None
          end
      end
  end.

(** A capture: group 1 (the attributes) and group 2 (the body). *)
Definition capture : Type := text * text.

(** The regex [(?ms)<ClaippyArtifact\s*([^>]*?)>(.*?)</ClaippyArtifact>]
    anchored at the start of [l]: the preferred match and the text after it.
    [\s*] is greedy and [[^>]*?] cannot pass a [>], so the opening tag
    always ends at the first [>]; the lazy body ends at the first closing
    tag after it, and when there is none no backtracking helps. *)
Definition match_at (l : text) : option (capture * text) :=
  match strip_prefix open_tag l with
  | None => None
  | Some r =>
      match take_until ">"%char (skip_ws r) with
      | None => None
      | Some (attrs, r2) =>
          match find_sub close_tag r2 with
          | None => None
          | Some (body, rest) => Some ((attrs, body), rest)
          end
      end
  end.

(** Leftmost-first search: the text before the match, the capture and the
    text after the match. *)
Fixpoint find_leftmost (l : text) : option (text * capture * text) :=
  match match_at l with
  | Some (cap, rest) => Some ([], cap, rest)
  | None =>
      match l with
      | [] => None
      | c :: l' =>
          match find_leftmost l' with
          | Some (pre, cap, rest) => Some (c :: pre, cap, rest)
          | None => None
          end
      end
  end.

(** [artifact_regex.captures_iter(&full_content)]: successive non-overlapping
    matches, each with the slice [full_content[last_end..start]] before it,
    and the text after the last match.  Every match is non-empty, so
    [length l] rounds are enough. *)
Fixpoint captures_iter (fuel : nat) (l : text) : list (text * capture) * text :=
  match fuel with
  | 0 => ([], l)
  | S f =>
      match find_leftmost l with
      | None => ([], l)
      | Some (pre, cap, rest) =>
          let '(caps, tail) := captures_iter f rest in
          ((pre, cap) :: caps, tail)
      end
  end.

(** The regex [name=Q([^Q]+)Q], Q the double quote, at the start of [l]:
    the greedy [[^Q]+] reaches the next quote, and must be non-empty. *)
Definition attr_at (name l : text) : option text :=
  match strip_prefix (name ++ ["="%char; dq]) l with
  | None => None
  | Some r =>
      match take_until dq r with
      | Some (v, _) => match v with [] => None | _ => Some v end
      | None => None
      end
  end.

(** [Regex::new(name=Q([^Q]+)Q).captures(attrs)], group 1. *)
Fixpoint find_attr (name l : text) : option text :=
  match attr_at name l with
  | Some v => Some v
  | None =>
      match l with
      | [] => None
      | _ :: l' => find_attr name l'
      end
  end.

Definition artifact_of_capture (cap : capture) : MessageParts :=
  let '(attrs, body) := cap in
  MessageParts.Artifact
    (default (s2l "unknown") (find_attr (s2l "identifier") attrs))
    (find_attr (s2l "language") attrs)
    body.

(** The loop body: [if start > last_end] push the text before the artifact,
    then push the artifact. *)
Definition parts_of_capture (pc : text * capture) : list MessageParts :=
  let '(pre, cap) := pc in
  match pre with
  | [] => []
  | _ => [MessageParts.Markdown pre]
  end ++ [artifact_of_capture cap].

Definition parse_message_parts (full_content : text) : list MessageParts :=
  let '(caps, tail) := captures_iter (length full_content) full_content in
  flat_map parts_of_capture caps ++
  match tail with
  | [] => []
  | _ => [MessageParts.Markdown tail]
  end.

(* ------------------------------------------------------------------------ *)
(** ** model.rs: [Artifact::extract_from_message] *)

(** The part of a roxmltree document that [parse_artifact_xml] reads: a
    tree of elements (tag name, attributes, children) and text nodes.  The
    tag name is [tag_name().name()], the local name without a namespace
    prefix.  The document's own root node has an empty tag name and is left
    out. *)
Set Warnings "-register-all".
Inductive xml_node :=
| XElem (name : text) (attrs : list (text * text)) (children : list xml_node)
| XText (t : text).

Definition tag_name (n : xml_node) : text :=
  match n with XElem nm _ _ => nm | XText _ => [] end.

(** [Node::descendants]: the node itself, then its subtrees in order. *)
Fixpoint descendants (n : xml_node) : list xml_node :=
  match n with
  | XElem _ _ cs => n :: flat_map descendants cs
  | XText _ => [n]
  end.

Fixpoint assoc_text (k : text) (kvs : list (text * text)) : option text :=
  match kvs with
  | [] => None
  | (k', v) :: kvs' => if list_eq_dec ascii_dec k k' then Some v else assoc_text k kvs'
  end.

Definition attribute (n : xml_node) (name : text) : option text :=
  match n with XElem _ attrs _ => assoc_text name attrs | XText _ => None end.

(** [Node::text]: the first child, when it is a text node. *)
Definition node_text (n : xml_node) : option text :=
  match n with XElem _ _ (XText t :: _) => Some t | _ => None end.

Definition is_tag (name : text) (n : xml_node) : bool :=
  if list_eq_dec ascii_dec (tag_name n) name then true else false.

(** [parse_artifact_xml]; [xml_parse] is [roxmltree::Document::parse]
    giving the root element. *)
Definition parse_artifact_xml (xml_parse : text -> option xml_node) (xml : text)
  : option Artifact :=
  match xml_parse xml with
  | None => None
  | Some doc =>
      match find (is_tag (s2l "ClippyArtifact")) (descendants doc) with
      | None => None
      | Some elem =>
          match attribute elem (s2l "identifier") with
          | None => None
          | Some i =>
              match node_text elem with
              | None => None
              | Some t =>
                  Some {| art_id := i; art_language := attribute elem (s2l "language");
                          art_src := attribute elem (s2l "src"); art_text := t |}
              end
          end
      end
  end.

(** Lazy [.*?] without the [s] flag followed by [needle]: [.] stops at a
    newline. *)
Fixpoint find_sub_line (needle l : text) : option (text * text) :=
  match strip_prefix needle l with
  | Some r => Some ([], r)
  | None =>
      match l with
      | [] => None
      | c :: l' =>
          if ascii_dec c nl then None
          else match find_sub_line needle l' with
               | Some (pre, post) => Some (c :: pre, post)
               | None => None
               end
      end
  end.

(** [<ClaippyArtifact.*?</ClaippyArtifact>] anchored at the start of [l]. *)
Definition match_block_at (l : text) : option text :=
  match strip_prefix open_tag l with
  | None => None
  | Some r =>
      match find_sub_line close_tag r with
      | Some (body, _) => Some (open_tag ++ body ++ close_tag)
      | None => None
      end
  end.

(** [re.captures(&message).and_then(|cap| cap.get(0))]: the leftmost match. *)
Fixpoint find_block (l : text) : option text :=
  match match_block_at l with
  | Some m => Some m
  | None => match l with [] => None | _ :: l' => find_block l' end
  end.

Definition extract_from_message (xml_parse : text -> option xml_node) (message : text)
  : option Artifact :=
  match find_block message with
  | None => None
  | Some m => parse_artifact_xml xml_parse m
  end.

(** Two properties every XML parser has: a document whose text ends with
    the end tag [</ClaippyArtifact>] has the root element [ClaippyArtifact]
    (only an end tag can close a document that ends in [>] this way), and
    every element of the tree comes from a start tag [<name] or
    [<prefix:name] in the text ([tag_name] being the local name). *)
Definition xml_parser_ok (xml_parse : text -> option xml_node) : Prop :=
  (forall pre root, xml_parse (pre ++ close_tag) = Some root ->
                    tag_name root = CLAIPPY_ARTIFACT) /\
  (forall m root, xml_parse m = Some root ->
     forall d, In d (descendants root) -> tag_name d <> [] ->
     infix ("<"%char :: tag_name d) m \/ infix (":"%char :: tag_name d) m).

(** The elements strictly below a node. *)
Definition nested (root : xml_node) : list xml_node :=
  match root with
  | XElem _ _ cs => flat_map descendants cs
  | XText _ => []
  end.

(* ------------------------------------------------------------------------ *)
(** ** Serialising parts, and the assistant turn of [handle_query] *)

(** Modelled from the spec: [Conversation::as_messages], which serialises a
    turn's parts into one string (the artifact wrapping of §4.2
    flatten_for_transmission; the markup is the one the system prompt in
    main.rs documents), is called by command.rs but is not under src/. *)
Definition artifact_open (identifier : text) (language : option text) : text :=
  open_tag ++ s2l " identifier=" ++ [dq] ++ identifier ++ [dq] ++
  match language with
  | Some l => s2l " language=" ++ [dq] ++ l ++ [dq]
  | None => []
  end ++ s2l ">".

Definition flatten_part (p : MessageParts) : text :=
  match p with
  | MessageParts.Markdown s => s
  | MessageParts.Artifact i l c => artifact_open i l ++ c ++ close_tag
  end.

Definition flatten (parts : list MessageParts) : text :=
  flat_map flatten_part parts.

(** Modelled from the spec: [Conversation::add_assistant_message(parts)]
    called by [handle_query] is not under src/ (model.rs has the older
    two-argument method); it appends an Assistant turn made of the
    segmenter's output, kept here in its serialised form. *)
Definition add_assistant_parts (c : Conversation) (parts : list MessageParts)
  : Conversation :=
  set_messages c (messages c ++
    [{| message := {| role := ASSISTANT_ROLE; content := flatten parts |};
        artifact := None |}]).

(** The inner loop of [handle_query] over the characters of a chunk: a
    newline completes [current_line], which is appended to [full_content]
    with the newline.  (Printing is left out.) *)
Fixpoint push_chars (cs : text) (full_content current_line : text) : text * text :=
  match cs with
  | [] => (full_content, current_line)
  | c :: cs' =>
      if ascii_dec c nl
      then push_chars cs' (full_content ++ current_line ++ [nl]) []
      else push_chars cs' full_content (current_line ++ [c])
  end.

(** [for chunk_result in query_response { let chunk = chunk_result?; ... }] *)
Fixpoint read_chunks (stream : list (result text)) (full_content current_line : text)
  : result (text * text) :=
  match stream with
  | [] => Ok (full_content, current_line)
  | Err e :: _ => Err e
  | Ok chunk :: rest =>
      let '(f, l) := push_chars chunk full_content current_line in
      read_chunks rest f l
  end.

(** [if !current_line.is_empty() { ...; full_content.push_str(&current_line) }] *)
Definition finish_content (full_content current_line : text) : text :=
  match current_line with
  | [] => full_content
  | _ => full_content ++ current_line
  end.

(** The chunk loop followed by [parse_message_parts(full_content)]. *)
Definition segment_stream (stream : list (result text)) : result (list MessageParts) :=
  match read_chunks stream [] [] with
  | Err e => Err e
  | Ok (f, l) => Ok (parse_message_parts (finish_content f l))
  end.

(** [handle_query]: [db] is the stored current conversation and the first
    component of the result is the stored conversation after the call
    ([db.write_conversation] is the last step, taken to succeed).  The
    model's [generate] is an external function from the message list to a
    chunk stream; terminal output is left out. *)
Definition handle_query (fetch : WorkspaceContext -> result text)
    (generate : list Message -> result (list (result text)))
    (db : Conversation) (query : text) : Conversation * result unit :=
  let conversation := db in
  match add_user_message fetch conversation query with
  | (_, Err e) => (db, Err e)
  | (c1, Ok _) =>
      match generate (as_message_refs c1) with
      | Err e => (db, Err e)
      | Ok query_response =>
          match read_chunks query_response [] [] with
          | Err e => (db, Err e)
          | Ok (f, l) =>
              let parsed_message := parse_message_parts (finish_content f l) in
              (add_assistant_parts c1 parsed_message, Ok tt)
          end
      end
  end.

(* ------------------------------------------------------------------------ *)
(** ** Vocabulary for the segmenter's claims *)

(** The language of the artifact regex: an opening tag, characters other
    than [>], a [>], a body and a closing tag, somewhere in [s]. *)
Definition has_marker_pair (s : text) : Prop :=
  exists pre attrs body post : text,
    s = pre ++ open_tag ++ attrs ++ (">"%char :: body ++ close_tag ++ post) /\
    ~ In ">"%char attrs.

(** Characters an identifier, resp. a language, may hold when it is written
    into an attribute: no quote, no [>] (and for identifiers no [=]). *)
Definition id_char (c : ascii) : bool :=
  negb (Ascii.eqb c dq) && negb (Ascii.eqb c ">") && negb (Ascii.eqb c "=").
Definition lang_char (c : ascii) : bool :=
  negb (Ascii.eqb c dq) && negb (Ascii.eqb c ">").

(** Parts that survive serialisation: text with no opening marker;
    artifacts with a non-empty plain identifier, no or a non-empty plain
    language, and a body with no closing marker. *)
Definition part_ok (p : MessageParts) : Prop :=
  match p with
  | MessageParts.Markdown t => ~ infix open_tag t
  | MessageParts.Artifact i l c =>
      i <> [] /\ forallb id_char i = true /\
      match l with
      | None => True
      | Some l' => l' <> [] /\ forallb lang_char l' = true
      end /\
      ~ infix close_tag c
  end.

(** Merging adjacent text parts (and dropping empty ones). *)
Fixpoint merge_text (S : list MessageParts) : list MessageParts :=
  match S with
  | [] => []
  | MessageParts.Markdown t :: S' =>
      match merge_text S' with
      | MessageParts.Markdown u :: R => MessageParts.Markdown (t ++ u) :: R
      | R => match t with [] => R | _ => MessageParts.Markdown t :: R end
      end
  | p :: S' => p :: merge_text S'
  end.

(** No empty text part, no two adjacent text parts. *)
Fixpoint merged (S : list MessageParts) : Prop :=
  match S with
  | [] => True
  | MessageParts.Markdown t :: S' =>
      t <> [] /\
      match S' with MessageParts.Markdown _ :: _ => False | _ => True end /\
      merged S'
  | _ :: S' => merged S'
  end.

Fixpoint count_artifacts (S : list MessageParts) : nat :=
  match S with
  | [] => 0
  | MessageParts.Markdown _ :: S' => count_artifacts S'
  | _ :: S' => Datatypes.S (count_artifacts S')
  end.

(** [strip_prefix p] fails at every position inside [a] of [a ++ X]. *)
Definition no_start (p a X : text) : Prop :=
  forall a1 a2, a = a1 ++ a2 -> a2 <> [] -> strip_prefix p (a2 ++ X) = None.

(** For every [k > 0] with [p]'s [k]-th character [x], the first [k]
    characters hold one outside [P]. *)
Definition cross_ok (P : ascii -> bool) (x : ascii) (p : text) : bool :=
  forallb (fun k =>
    match nth_error p k with
    | Some y => if ascii_dec y x then existsb (fun c => negb (P c)) (firstn k p) else true
    | None => true
    end) (seq 1 (length p)).

(** The attributes [artifact_open] writes. *)
Definition artifact_attrs (identifier : text) (language : option text) : text :=
  s2l "identifier=" ++ [dq] ++ identifier ++ [dq] ++
  match language with
  | Some l => s2l " language=" ++ [dq] ++ l ++ [dq]
  | None => []
  end.

(** The text part that [parse_message_parts] emits after the last match. *)
Definition tail_part (tail : text) : list MessageParts :=
  match tail with
  | [] => []
  | _ => [MessageParts.Markdown tail]
  end.

(** An artifact whose body holds the closing marker. *)
Definition c5_parts : list MessageParts :=
  [MessageParts.Artifact (s2l "x") None (s2l "a</ClaippyArtifact>b")].

(** Text, an artifact with a language, text. *)
Definition c5_ok_parts : list MessageParts :=
  [MessageParts.Markdown (s2l "Here: ");
   MessageParts.Artifact (s2l "factorial-script") (Some (s2l "python")) (s2l "def f(n): return 1");
   MessageParts.Markdown (s2l " done")].

(** An artifact written as the system prompt documents it, inside a reply,
    and a parser that gives its document tree. *)
Definition c10_block : text :=
  artifact_open (s2l "factorial-script") (Some (s2l "python"))
  ++ s2l "def f(n): return 1" ++ close_tag.

Definition c10_message : text := s2l "Sure: " ++ c10_block ++ s2l " done".

Definition c10_parse (m : text) : option xml_node :=
  if list_eq_dec ascii_dec m c10_block
  then Some (XElem CLAIPPY_ARTIFACT
               [(s2l "identifier", s2l "factorial-script"); (s2l "language", s2l "python")]
               [XText (s2l "def f(n): return 1")])
  else None.

(** A block in the documented convention whose content holds an element with
    the local name [ClippyArtifact] under a namespace prefix, and its
    document tree. *)
Definition c10_ns_block : text :=
  artifact_open (s2l "outer") None
  ++ s2l "<p:ClippyArtifact xmlns:p=" ++ [dq] ++ s2l "u" ++ [dq]
  ++ s2l " identifier=" ++ [dq] ++ s2l "x" ++ [dq] ++ s2l ">t</p:ClippyArtifact>"
  ++ close_tag.

Definition c10_ns_parse (m : text) : option xml_node :=
  if list_eq_dec ascii_dec m c10_ns_block
  then Some (XElem CLAIPPY_ARTIFACT [(s2l "identifier", s2l "outer")]
               [XElem (s2l "ClippyArtifact") [(s2l "identifier", s2l "x")] [XText (s2l "t")]])
  else None.

(** The example of the spec: an opening marker with no closing one. *)
Definition c9_input : text :=
  s2l "before <ClaippyArtifact identifier=" ++ [dq] ++ s2l "x" ++ [dq] ++ s2l ">body".

(* ------------------------------------------------------------------------ *)
(** ** Reachable conversations *)

(** States reachable from [Conversation::empty] through the mutating
    methods, where [add_workspace_contexts] is only given references that
    are not already seen. *)
Inductive reachable_guarded : Conversation -> Prop :=
| rg_empty i : reachable_guarded (empty i)
| rg_add c raws :
    reachable_guarded c ->
    Forall (fun raw => WorkspaceContext.from raw ∉ seen_context c) raws ->
    reachable_guarded (fst (add_workspace_contexts c raws))
| rg_user fetch c msg :
    reachable_guarded c -> reachable_guarded (fst (add_user_message fetch c msg))
| rg_assistant c msg art :
    reachable_guarded c -> reachable_guarded (add_assistant_message c msg art)
| rg_clear c :
    reachable_guarded c -> reachable_guarded (fst (clear c)).

Definition contexts_disjoint (c : Conversation) : Prop :=
  seen_context c ∩ unseen_context c = ∅.

(* ------------------------------------------------------------------------ *)
(** ** model.rs: the remaining helpers *)

(** [Conversation::create_id]; [Utc::now().to_rfc3339()] is [now]. *)
Definition create_id (descriptor now : string) : string :=
  String.append descriptor (String.append "-" now).

(** A one-character string holding a newline. *)
Definition nl_s : string := String nl EmptyString.

(** [Vec<String>::join(sep)]. *)
Fixpoint join (sep : string) (l : list string) : string :=
  match l with
  | [] => EmptyString
  | [x] => x
  | x :: l' => String.append x (String.append sep (join sep l'))
  end.

(** The text [retrieve] makes of a context whose contents are [contents]. *)
Definition context_block (w : WorkspaceContext) (contents : text) : text :=
  s2l "<ClaippyContext src=" ++ [dq] ++ s2l (WorkspaceContext.to_string w) ++ [dq]
  ++ s2l ">" ++ contents ++ s2l "</ClaippyContext>".

(* ------------------------------------------------------------------------ *)
(** ** command.rs: argument parsing *)

Inductive CliCmd :=
| NewConversation (conversation_id : string)
| AddWorkspaceContext (paths : list string)
| RemoveWorkspaceContext (paths : list string)
| Repl
| Query (query : string)
| Clear
| ListWorkspaceContext
| History.

Module CmdOutput.
Inductive t :=
| Done
| Message (msg : string).
End CmdOutput.
Abbreviation CmdOutput := CmdOutput.t.

(** The [match cmd.as_str()] of [CliCmd::parse_args]. *)
Definition parse_cmd (now : string) (cmd : string) (args : list string) : result CliCmd :=
  if String.eqb cmd "query" || String.eqb cmd "q" then Ok (Query (join " " args))
  else if String.eqb cmd "new" || String.eqb cmd "n" then
    Ok (NewConversation (create_id (join "-" args) now))
  else if String.eqb cmd "add" || String.eqb cmd "a" then Ok (AddWorkspaceContext args)
  else if String.eqb cmd "remove" || String.eqb cmd "rm" then Ok (RemoveWorkspaceContext args)
  else if String.eqb cmd "clear" then Ok Clear
  else if String.eqb cmd "ls" then Ok ListWorkspaceContext
  else if String.eqb cmd "repl" then Ok Repl
  else if String.eqb cmd "history" then Ok History
  else Err (String.append "Unknown command: " cmd).

(** [CliCmd::parse_args]: the first argument, ["repl"] when there is none. *)
Definition parse_args (now : string) (args : list string) : result CliCmd :=
  match args with
  | [] => parse_cmd now "repl" []
  | cmd :: rest => parse_cmd now cmd rest
  end.

(** The command words [parse_args] accepts. *)
Definition known_commands : list string :=
  ["query"; "q"; "new"; "n"; "add"; "a"; "remove"; "rm"; "clear"; "ls"; "repl"; "history"]%string.

(* ------------------------------------------------------------------------ *)
(** ** command.rs: [CliCmd::ListWorkspaceContext] *)

(** [seen_context.into_iter().chain(unseen_context)].map(to_string): the
    iteration order inside each hash set is unspecified; [elements] fixes
    one. *)
Definition context_lines (c : Conversation) : list string :=
  map WorkspaceContext.to_string (elements (seen_context c) ++ elements (unseen_context c)).

Definition context_display (c : Conversation) : string :=
  String.append "Current context:" (String.append nl_s (join nl_s (context_lines c))).

(* ------------------------------------------------------------------------ *)
(** ** command.rs: the REPL loop of [handle_repl] *)

(** A line of the REPL is a Rust [String]: here the list of its UTF-8 bytes.
    [str::trim_start], [str::trim] and [str::split_whitespace] work on the
    characters with the Unicode White_Space property; these are their UTF-8
    encodings (U+0009 to U+000D, U+0020, U+0085, U+00A0, U+1680, U+2000 to
    U+200A, U+2028, U+2029, U+202F, U+205F, U+3000). *)
Definition unicode_ws : list text :=
  map (map ascii_of_nat)
    ([[9]; [10]; [11]; [12]; [13]; [32]; [194; 133]; [194; 160]; [225; 154; 128]] ++
     map (fun b => [226; 128; b]) (seq 128 11) ++
     [[226; 128; 168]; [226; 128; 169]; [226; 128; 175]; [226; 129; 159];
      [227; 128; 128]]).

(** The rest of [l] after the white-space character it starts with, if it
    starts with one.  A valid UTF-8 text is scanned from character starts
    only, and every encoding above starts with a lead or ASCII byte, so a
    match is always a whole character. *)
Fixpoint ws_prefix_in (ws : list text) (l : text) : option text :=
  match ws with
  | [] => None
  | w :: ws' =>
      match strip_prefix w l with
      | Some r => Some r
      | None => ws_prefix_in ws' l
      end
  end.

Definition ws_prefix (l : text) : option text := ws_prefix_in unicode_ws l.

(** [str::trim_start]; every step drops at least one byte, so [length l]
    steps suffice. *)
Fixpoint trim_start_aux (fuel : nat) (l : text) : text :=
  match fuel with
  | 0 => l
  | S f => match ws_prefix l with Some r => trim_start_aux f r | None => l end
  end.

Definition trim_start (l : text) : text := trim_start_aux (length l) l.

(** [str::split_whitespace]: the maximal runs of non-white-space
    characters, [cur] holding the current run reversed. *)
Fixpoint split_ws_aux (fuel : nat) (l cur : text) : list text :=
  let flush := match cur with [] => [] | _ => [rev cur] end in
  match fuel with
  | 0 => flush
  | S f =>
      match l with
      | [] => flush
      | c :: l' =>
          match ws_prefix l with
          | Some r => flush ++ split_ws_aux f r []
          | None => split_ws_aux f l' (c :: cur)
          end
      end
  end.

Definition split_whitespace (l : text) : list text := split_ws_aux (length l) l [].

(** [line.trim().is_empty()]: the line is white space only. *)
Definition is_blank (line : text) : bool :=
  match trim_start line with [] => true | _ => false end.

(** [input.strip_prefix('!')]. *)
Definition strip_bang (input : text) : option text :=
  match input with
  | c :: r => if ascii_dec c "!"%char then Some r else None
  | [] => None
  end.

(** What [rl.readline] returns. *)
Inductive ReadlineResult :=
| RLOk (line : text)
| RLInterrupted
| RLEof
| RLErr (err : string).

(** What the loop prints. *)
Inductive ReplOutput :=
| PrintMessage (msg : string)
| PrintQueryError (e : string)
| PrintReadError (e : string).

Section Repl.
(** [St] is the state the commands act on (the conversation store);
    [execute] is [cmd.execute(model, db)], [query] is
    [handle_query(model, input, db)]; the history calls are the editor's. *)
Variable St : Type.
Variable now : string.
Variable execute : CliCmd -> St -> St * result CmdOutput.
Variable query : text -> St -> St * result unit.
Variable add_history_entry : text -> result unit.
Variable save_history : result unit.

(** The [loop] of [handle_repl], over the successive results of
    [rl.readline]; the end of the input reads as [Eof].  [continue] skips
    [save_history]. *)
Fixpoint repl_loop (inputs : list ReadlineResult) (st : St) (out : list ReplOutput)
  : St * list ReplOutput * result CmdOutput :=
  match inputs with
  | [] | RLInterrupted :: _ | RLEof :: _ => (st, out, Ok CmdOutput.Done)
  | RLErr err :: rest =>
      let out' := out ++ [PrintReadError err] in
      match save_history with
      | Err e => (st, out', Err e)
      | Ok _ => repl_loop rest st out'
      end
  | RLOk line :: rest =>
      if is_blank line then repl_loop rest st out
      else
        match add_history_entry line with
        | Err e => (st, out, Err e)
        | Ok _ =>
            let input := trim_start line in
            match strip_bang input with
            | Some cmd_str =>
                match parse_args now (map string_of_list_ascii (split_whitespace cmd_str)) with
                | Err e => (st, out, Err e)
                | Ok cmd =>
                    let '(st', r) := execute cmd st in
                    match r with
                    | Err e => (st', out, Err e)
                    | Ok CmdOutput.Done => repl_loop rest st' out
                    | Ok (CmdOutput.Message msg) =>
                        let out' := out ++ [PrintMessage msg] in
                        match save_history with
                        | Err e => (st', out', Err e)
                        | Ok _ => repl_loop rest st' out'
                        end
                    end
                end
            | None =>
                let '(st', r) := query input st in
                let out' := match r with Err e => out ++ [PrintQueryError e] | Ok _ => out end in
                match save_history with
                | Err e => (st', out', Err e)
                | Ok _ => repl_loop rest st' out'
                end
            end
        end
  end.
End Repl.

(* ------------------------------------------------------------------------ *)
(** ** query.rs: the response stream of [Bedrock::generate] *)

Record RspText := { rsp_text : option text }.
Record RspChunk := { rsp_type : string; rsp_delta : option RspText }.

(** [ResponseStream]: a chunk with its optional payload bytes, or an event
    of another kind. *)
Inductive ResponseStream :=
| Chunk (bytes : option text)
| Unknown.

(** The result of [event_receiver.recv()]:
    [Result<Option<ResponseStream>, SdkError>]. *)
Inductive Recv :=
| RecvErr (e : string)
| RecvOk (ev : option ResponseStream).

Section Bedrock.
(** [from_str] is [serde_json::from_str::<RspChunk>], [from_utf8] is
    [String::from_utf8]. *)
Variable from_str : text -> result RspChunk.
Variable from_utf8 : text -> result text.

Definition parse_claude_api_text (chunk_text : text) : result (option text) :=
  match from_str chunk_text with
  | Err e => Err e
  | Ok r =>
      match rsp_delta r with
      | Some d =>
          match rsp_text d with
          | Some t => if String.eqb (rsp_type r) "content_block_delta" then Ok (Some t) else Ok None
          | None => Ok None
          end
      | None => Ok None
      end
  end.

Definition convert_to_option (recv : Recv) : option (result text) :=
  match recv with
  | RecvErr e => Some (Err e)
  | RecvOk (Some (Chunk (Some bytes))) => Some (from_utf8 bytes)
  | RecvOk (Some _) => Some (Ok [])
  | RecvOk None => None
  end.

(** [from_fn(recv).map(and_then(parse_claude_api_text)).filter_map(..)]
    over the successive [recv] results. *)
Fixpoint response_stream (recvs : list Recv) : list (result text) :=
  match recvs with
  | [] => []
  | r :: rest =>
      match convert_to_option r with
      | None => []
      | Some item =>
          match match item with Ok chunk => parse_claude_api_text chunk | Err e => Err e end with
          | Ok None => response_stream rest
          | Ok (Some s) => Ok s :: response_stream rest
          | Err e => Err e :: response_stream rest
          end
      end
  end.
End Bedrock.

(* ------------------------------------------------------------------------ *)
(** ** db.rs *)

(** [Db::create]: paths are lists of components, innermost first, so
    [PathBuf::pop] drops the head and fails on the root [[]]; [is_dir] and
    [create_dir_all] are the file system's. *)
Fixpoint db_create_loop (is_dir : list string -> bool)
    (create_dir_all : list string -> result unit) (path : list string)
  : result (list string) :=
  if is_dir (".git"%string :: path) then
    let path := (".claippy"%string :: path) in
    if is_dir path then Ok path
    else match create_dir_all path with Err e => Err e | Ok _ => Ok path end
  else
    match path with
    | [] => Err "No .git directory found in any parent directory"
    | _ :: up => db_create_loop is_dir create_dir_all up
    end.

Definition db_create (current_dir : result (list string)) (is_dir : list string -> bool)
    (create_dir_all : list string -> result unit) : result (list string) :=
  match current_dir with
  | Err e => Err e
  | Ok path => db_create_loop is_dir create_dir_all path
  end.

(** An entry of the file system: a file, a symbolic link to another entry,
    or a directory. *)
Inductive Entry (J : Type) :=
| FileE (contents : J)
| Link (target : string)
| DirE.
Arguments FileE {J} contents.
Arguments Link {J} target.
Arguments DirE {J}.

Definition CURRENT_PATH : string := "current".

(** Linux follows at most 40 links in a path. *)
Definition MAX_LINKS : nat := 40.

(** The file system seen from the [.claippy] directory: paths to entries.
    [self.path.join(name)] is the entry [name] of the directory when [name]
    is a single component, a path below it when [name] is relative and holds
    a [/], and the path [name] itself when [name] is absolute; the store is
    keyed by these spellings (a [.] or [..] component is kept as written). *)
Abbreviation Fs J := (gmap string (Entry J)).

(** The directory part of a path, before its last [/]; [None] for a single
    component, the empty string for a path [/x] of the root. *)
Fixpoint parent_rev (r : text) : option text :=
  match r with
  | [] => None
  | c :: r' => if ascii_dec c "/"%char then Some (rev r') else parent_rev r'
  end.

Definition parent (name : string) : option string :=
  option_map string_of_list_ascii (parent_rev (rev (list_ascii_of_string name))).

Section Db.
(** The store maps paths (see [Fs]) to entries.  [to_json] is
    [serde_json::to_string_pretty], [from_json] is [serde_json::from_slice];
    a file holds what [to_json] wrote.  I/O errors other than the ones
    below are not modelled. *)
Variable J : Type.
Variable to_json : Conversation -> J.
Variable from_json : J -> result Conversation.

(** Path resolution: the entry a name ends at after following links;
    [None] on too many links. *)
Fixpoint follow (fuel : nat) (fs : Fs J) (name : string) : option string :=
  match fs !! name with
  | Some (Link t) => match fuel with 0 => None | S f => follow f fs t end
  | _ => Some name
  end.

(** [Path::exists]. *)
Definition path_exists (fs : Fs J) (name : string) : bool :=
  match follow MAX_LINKS fs name with
  | Some n => match fs !! n with Some (FileE _) | Some DirE => true | _ => false end
  | None => false
  end.

(** Creating an entry at the path [name] needs the directory it lies in:
    [ENOENT] when that is missing, [ENOTDIR] when it is a file.  The
    [.claippy] directory itself (a single component) and the root (a path
    [/x]) exist. *)
Definition parent_check (fs : Fs J) (name : string) : result unit :=
  match parent name with
  | None | Some EmptyString => Ok tt
  | Some d =>
      match follow MAX_LINKS fs d with
      | None => Err "ELOOP"
      | Some n =>
          match fs !! n with
          | Some DirE => Ok tt
          | Some (FileE _) => Err "ENOTDIR"
          | _ => Err "ENOENT"
          end
      end
  end.

(** [fs::write]: truncates the file the name resolves to, or creates it in
    an existing directory. *)
Definition fs_write (fs : Fs J) (name : string) (data : J) : (Fs J) * result unit :=
  match follow MAX_LINKS fs name with
  | Some n =>
      match fs !! n with
      | Some DirE => (fs, Err "EISDIR")
      | Some (FileE _) => (<[n := FileE data]> fs, Ok tt)
      | _ =>
          match parent_check fs n with
          | Err e => (fs, Err e)
          | Ok _ => (<[n := FileE data]> fs, Ok tt)
          end
      end
  | None => (fs, Err "ELOOP")
  end.

(** [fs::read]. *)
Definition fs_read (fs : Fs J) (name : string) : result J :=
  match follow MAX_LINKS fs name with
  | Some n =>
      match fs !! n with
      | Some (FileE d) => Ok d
      | Some DirE => Err "EISDIR"
      | _ => Err "ENOENT"
      end
  | None => Err "ELOOP"
  end.

(** [std::os::unix::fs::symlink(original, link)]: fails when [link] exists,
    even as a dangling link, or when its directory does not. *)
Definition fs_symlink (fs : Fs J) (original link : string) : (Fs J) * result unit :=
  match fs !! link with
  | Some _ => (fs, Err "EEXIST")
  | None =>
      match parent_check fs link with
      | Err e => (fs, Err e)
      | Ok _ => (<[link := Link original]> fs, Ok tt)
      end
  end.

Definition write_conversation (fs : Fs J) (conversation : Conversation) : (Fs J) * result unit :=
  fs_write fs (id conversation) (to_json conversation).

Definition create_conversation (fs : Fs J) (conversation_id : string) : (Fs J) * result unit :=
  let conversation := empty conversation_id in
  match write_conversation fs conversation with
  | (fs1, Err e) => (fs1, Err e)
  | (fs1, Ok _) => fs_symlink fs1 conversation_id CURRENT_PATH
  end.

Variable now : string.

Definition read_conversation (fs : Fs J) (conversation_id : string) : (Fs J) * result Conversation :=
  let '(fs1, r) :=
    if path_exists fs conversation_id then (fs, Ok tt)
    else
      let conversation_to_create :=
        if String.eqb conversation_id CURRENT_PATH
        then create_id "untitled-conversation" now else conversation_id in
      create_conversation fs conversation_to_create in
  match r with
  | Err e => (fs1, Err e)
  | Ok _ =>
      match fs_read fs1 conversation_id with
      | Err e => (fs1, Err e)
      | Ok bytes => (fs1, from_json bytes)
      end
  end.

Definition read_current_conversation (fs : Fs J) : (Fs J) * result Conversation :=
  read_conversation fs CURRENT_PATH.

(** [handle_add_workspace_contexts]. *)
Definition handle_add_workspace_contexts (fs : Fs J) (paths : list string)
  : (Fs J) * result CmdOutput :=
  match read_current_conversation fs with
  | (fs1, Err e) => (fs1, Err e)
  | (fs1, Ok conversation) =>
      let context_display := String.append "Added context:" (String.append nl_s (join nl_s paths)) in
      let '(conversation', r) := add_workspace_contexts conversation paths in
      match r with
      | Err e => (fs1, Err e)
      | Ok _ =>
          match write_conversation fs1 conversation' with
          | (fs2, Err e) => (fs2, Err e)
          | (fs2, Ok _) => (fs2, Ok (CmdOutput.Message context_display))
          end
      end
  end.

(** [CliCmd::ListWorkspaceContext] of [execute]. *)
Definition list_workspace_context (fs : Fs J) : (Fs J) * result CmdOutput :=
  match read_current_conversation fs with
  | (fs1, Err e) => (fs1, Err e)
  | (fs1, Ok conversation) => (fs1, Ok (CmdOutput.Message (context_display conversation)))
  end.
(** [CliCmd::Clear] of [execute]. *)
Definition execute_clear (fs : Fs J) : (Fs J) * result CmdOutput :=
  match read_current_conversation fs with
  | (fs1, Err e) => (fs1, Err e)
  | (fs1, Ok conversation) =>
      let '(conversation', r) := clear conversation in
      match r with
      | Err e => (fs1, Err e)
      | Ok _ =>
          match write_conversation fs1 conversation' with
          | (fs2, Err e) => (fs2, Err e)
          | (fs2, Ok _) =>
              (fs2, Ok (CmdOutput.Message
                          (String.append "Cleared conversation " (id conversation'))))
          end
      end
  end.
End Db.

(* ------------------------------------------------------------------------ *)
(** ** Properties of the segmenter's output and of the store *)

(** An artifact part's identifier is non-empty and quote-free, and so is its
    language when there is one. *)
Definition artifact_attrs_ok (p : MessageParts) : Prop :=
  match p with
  | MessageParts.Artifact i l _ =>
      i <> [] /\ ~ In dq i /\
      match l with Some l' => l' <> [] /\ ~ In dq l' | None => True end
  | MessageParts.Markdown _ => True
  end.

(** A Markdown part holds no complete artifact marker pair. *)
Definition text_has_no_pair (p : MessageParts) : Prop :=
  match p with MessageParts.Markdown t => ~ has_marker_pair t | _ => True end.

(** A store whose files decode, if at all, to the conversation named after
    the file, and whose only link is [current]. *)
Definition fs_wf (J : Type) (from_json : J -> result Conversation) (fs : Fs J) : Prop :=
  (forall n d c, fs !! n = Some (FileE d) -> from_json d = Ok c -> id c = n) /\
  (forall n t, fs !! n = Some (Link t) -> n = CURRENT_PATH).

(* ------------------------------------------------------------------------ *)
(** * Lemmas *)

Lemma drain_loop_seen fetch ctxs um seen :
  forall um' seen' r, drain_loop fetch ctxs um seen = (um', seen', r) ->
  seen ⊆ seen' /\ seen' ⊆ seen ∪ list_to_set ctxs.
Proof.
  revert um seen. induction ctxs as [|x xs IH]; intros um seen um' seen' r H; simpl in H.
  - inversion H; subst. set_solver.
  - destruct (WorkspaceContext.retrieve fetch x) as [w|e].
    + apply IH in H as [H1 H2]. simpl. set_solver.
    + inversion H; subst. set_solver.
Qed.

Lemma drain_loop_fails fetch ctxs w e :
  In w ctxs -> fetch w = Err e ->
  forall um seen, exists w' e' um' seen', In w' ctxs /\ fetch w' = Err e' /\
    drain_loop fetch ctxs um seen = (um', seen', Err e').
Proof.
  intros Hin He. induction ctxs as [|x xs IH]; intros um seen; [destruct Hin|].
  cbn [drain_loop]. unfold WorkspaceContext.retrieve.
  destruct (fetch x) as [t|e0] eqn:Fx.
  - destruct Hin as [->|Hin]; [congruence|].
    match goal with |- context [drain_loop fetch xs ?u ?sn] =>
      destruct (IH Hin u sn) as (w' & e' & um' & seen' & H1 & H2 & H3) end.
    exists w', e', um', seen'. split; [right; exact H1|]. split; [exact H2|]. exact H3.
  - exists x, e0, um, seen. split; [left; reflexivity|]. split; [exact Fx|]. reflexivity.
Qed.

Lemma add_user_message_unseen_empty fetch c msg :
  unseen_context (fst (add_user_message fetch c msg)) = ∅.
Proof.
  unfold add_user_message.
  destruct (drain_loop _ _ _ _) as [[um seen'] r]. destruct r; reflexivity.
Qed.

Lemma add_workspace_contexts_fold (raws : list string) :
  forall c,
  id (fst (add_workspace_contexts c raws)) = id c /\
  messages (fst (add_workspace_contexts c raws)) = messages c /\
  seen_context (fst (add_workspace_contexts c raws)) = seen_context c /\
  unseen_context (fst (add_workspace_contexts c raws)) =
    list_to_set (WorkspaceContext.from <$> raws) ∪ unseen_context c.
Proof.
  induction raws as [|raw raws IH]; intros c; simpl.
  - repeat split. set_solver.
  - destruct (IH (set_contexts c ({[WorkspaceContext.from raw]} ∪ unseen_context c)
                                 (seen_context c))) as (H1 & H2 & H3 & H4).
    unfold add_workspace_contexts in *; simpl in *.
    rewrite H1, H2, H3, H4. repeat split. simpl. set_solver.
Qed.

(* ------------------------------------------------------------------------ *)
(** * Claims *)

(** ** C2: the seen/unseen partition *)

(** C2 (counterexample): starting from [Conversation::empty], adding ["a"],
    sending a user message (its context is fetched and becomes seen) and
    adding ["a"] again leaves [File "a"] in both [seen_context] and
    [unseen_context]. *)
Lemma c2_readd_seen_context_in_both :
  let fetch := fun _ : WorkspaceContext => Ok (s2l "data") in
  let c1 := fst (add_workspace_contexts (empty "conv") ["a"%string]) in
  let c2 := fst (add_user_message fetch c1 (s2l "hi")) in
  let c3 := fst (add_workspace_contexts c2 ["a"%string]) in
  WorkspaceContext.File "a" ∈ seen_context c2 /\
  WorkspaceContext.File "a" ∈ seen_context c3 ∩ unseen_context c3.
Proof.
  split; apply (bool_decide_unpack _); vm_compute; exact I.
Qed.

(** C2 (amended): in every state reachable from [Conversation::empty] by
    [add_user_message], [add_assistant_message], [clear] and by
    [add_workspace_contexts] of references not already in [seen_context],
    [seen_context] and [unseen_context] are disjoint. *)
Theorem c2_partition_guarded (c : Conversation) :
  reachable_guarded c -> contexts_disjoint c.
Proof.
  unfold contexts_disjoint. induction 1 as
    [i | c raws Hr IH Hg | fetch c msg Hr IH | c msg art Hr IH | c Hr IH].
  - simpl. set_solver.
  - destruct (add_workspace_contexts_fold raws c) as (_ & _ & H3 & H4).
    rewrite H3, H4. rewrite Forall_forall in Hg.
    apply set_eq. intros x. rewrite elem_of_intersection, elem_of_union,
      elem_of_list_to_set, list_elem_of_fmap.
    split; [|set_solver]. intros [Hs [[raw [-> Hin]] | Hu]].
    + exfalso. apply (Hg raw); [|exact Hs]. by apply list_elem_of_In.
    + assert (x ∈ seen_context c ∩ unseen_context c) by set_solver.
      rewrite IH in *. set_solver.
  - rewrite add_user_message_unseen_empty. set_solver.
  - exact IH.
  - simpl. set_solver.
Qed.

Lemma c2_partition_guarded_witness :
  reachable_guarded
    (fst (add_workspace_contexts
       (fst (add_user_message (fun _ => Ok (s2l "data"))
          (fst (add_workspace_contexts (empty "conv") ["a"%string])) (s2l "hi")))
       ["b"%string])) /\
  contexts_disjoint
    (fst (add_workspace_contexts
       (fst (add_user_message (fun _ => Ok (s2l "data"))
          (fst (add_workspace_contexts (empty "conv") ["a"%string])) (s2l "hi")))
       ["b"%string])).
Proof.
  assert (H : reachable_guarded
    (fst (add_workspace_contexts
       (fst (add_user_message (fun _ => Ok (s2l "data"))
          (fst (add_workspace_contexts (empty "conv") ["a"%string])) (s2l "hi")))
       ["b"%string]))).
  { apply rg_add.
    - apply rg_user. apply rg_add; [apply rg_empty | constructor; [|constructor]].
      intros Hin. apply (bool_decide_pack _) in Hin. vm_compute in Hin. exact Hin.
    - constructor; [|constructor].
      intros Hin. apply (bool_decide_pack _) in Hin. vm_compute in Hin. exact Hin. }
  split; [exact H | exact (c2_partition_guarded _ H)].
Defined.

(** ** C3: per-reference atomicity of context resolution *)

(** A conversation with one pending file reference whose fetch fails. *)
Definition c3_conv : Conversation :=
  {| id := "conv"; unseen_context := {[WorkspaceContext.File "a.rs"]};
     seen_context := ∅; messages := [] |}.

Definition c3_fetch (_ : WorkspaceContext) : result text := Err "No such file".

(** C3 (code_bug, evaluation at the failing input): when the fetch of the
    pending reference [File "a.rs"] fails, [add_user_message] returns the
    error and the reference is afterwards in neither set, because the
    drained hash set is emptied before the failing fetch returns. *)
Lemma c3_failed_fetch_drops_reference :
  add_user_message c3_fetch c3_conv (s2l "hi") =
    (set_contexts c3_conv ∅ ∅, Err "No such file") /\
  WorkspaceContext.File "a.rs" ∈ unseen_context c3_conv /\
  (WorkspaceContext.File "a.rs" ∉
     unseen_context (fst (add_user_message c3_fetch c3_conv (s2l "hi")))) /\
  (WorkspaceContext.File "a.rs" ∉
     seen_context (fst (add_user_message c3_fetch c3_conv (s2l "hi")))).
Proof.
  split; [reflexivity|].
  split; [apply (bool_decide_unpack _); vm_compute; exact I|].
  split; intros Hin; apply (bool_decide_pack _) in Hin; vm_compute in Hin; exact Hin.
Qed.

(** ** C4: adding known references *)

(** C4 (counterexample): [File "a"] is already in [seen_context], yet
    [add_workspace_contexts ["a"]] changes [unseen_context] (it inserts the
    reference there). *)
Lemma c4_add_seen_changes_unseen :
  let c := {| id := "conv"; unseen_context := ∅;
              seen_context := {[WorkspaceContext.File "a"]}; messages := [] |} in
  WorkspaceContext.from "a" ∈ seen_context c /\
  unseen_context (fst (add_workspace_contexts c ["a"%string])) ≠ unseen_context c.
Proof.
  split.
  - apply (bool_decide_unpack _); vm_compute; exact I.
  - intros H. vm_compute in H. discriminate H.
Qed.

(** C4 (amended): [add_workspace_contexts] never fails and leaves
    [seen_context], the messages and the id unchanged; [unseen_context]
    becomes its union with the parsed references.  So when every parsed
    reference is already in [unseen_context] both sets are unchanged, while
    a reference that is only in [seen_context] is added to
    [unseen_context]. *)
Theorem c4_add_workspace_contexts_union (c : Conversation) (raws : list string) :
  snd (add_workspace_contexts c raws) = Ok tt /\
  seen_context (fst (add_workspace_contexts c raws)) = seen_context c /\
  messages (fst (add_workspace_contexts c raws)) = messages c /\
  id (fst (add_workspace_contexts c raws)) = id c /\
  unseen_context (fst (add_workspace_contexts c raws)) =
    list_to_set (WorkspaceContext.from <$> raws) ∪ unseen_context c /\
  (Forall (fun raw => WorkspaceContext.from raw ∈ unseen_context c) raws ->
   unseen_context (fst (add_workspace_contexts c raws)) = unseen_context c).
Proof.
  destruct (add_workspace_contexts_fold raws c) as (H1 & H2 & H3 & H4).
  split; [reflexivity|]. split; [exact H3|]. split; [exact H2|]. split; [exact H1|].
  split; [exact H4|].
  intros Hall. rewrite H4. rewrite Forall_forall in Hall.
  apply set_eq. intros x. rewrite elem_of_union, elem_of_list_to_set, list_elem_of_fmap.
  split; [|auto]. intros [[raw [-> Hin]] | Hu]; [|exact Hu].
  apply Hall, list_elem_of_In, Hin.
Qed.

(** ** C7: fail-fast on context failure *)

(** C7: when fetching one of the pending context references fails,
    [add_user_message] returns an error: the error of a pending reference
    whose fetch fails (the first one in the drain's order; the given one when
    the others are all fetched), and the message list is the one before the
    call. *)
Theorem c7_add_user_message_fail_fast fetch (c : Conversation) msg w e :
  w ∈ unseen_context c -> fetch w = Err e ->
  exists w' e', w' ∈ unseen_context c /\ fetch w' = Err e' /\
    snd (add_user_message fetch c msg) = Err e' /\
    messages (fst (add_user_message fetch c msg)) = messages c /\
    ((forall v, v ∈ unseen_context c -> v <> w -> exists t, fetch v = Ok t) -> e' = e).
Proof.
  intros Hw He.
  assert (Hin : In w (elements (unseen_context c))).
  { apply list_elem_of_In, elem_of_elements, Hw. }
  destruct (drain_loop_fails fetch _ w e Hin He [] (seen_context c))
    as (w' & e' & um' & seen' & Hin' & He' & Hd).
  assert (Hw' : w' ∈ unseen_context c).
  { apply elem_of_elements, list_elem_of_In, Hin'. }
  exists w', e'. split; [exact Hw'|]. split; [exact He'|].
  unfold add_user_message. rewrite Hd. cbn [fst snd].
  split; [reflexivity|]. split; [reflexivity|].
  intros Hothers. destruct (decide (w' = w)) as [->|Hne]; [congruence|].
  destruct (Hothers w' Hw' Hne) as [t Ht]. congruence.
Qed.

Lemma c7_add_user_message_fail_fast_witness :
  WorkspaceContext.File "a.rs" ∈ unseen_context c3_conv /\
  c3_fetch (WorkspaceContext.File "a.rs") = Err "No such file" /\
  exists w' e', w' ∈ unseen_context c3_conv /\ c3_fetch w' = Err e' /\
    snd (add_user_message c3_fetch c3_conv (s2l "hi")) = Err e' /\
    messages (fst (add_user_message c3_fetch c3_conv (s2l "hi"))) = messages c3_conv /\
    ((forall v, v ∈ unseen_context c3_conv -> v <> WorkspaceContext.File "a.rs" ->
        exists t, c3_fetch v = Ok t) -> e' = "No such file").
Proof.
  assert (H1 : WorkspaceContext.File "a.rs" ∈ unseen_context c3_conv).
  { apply (bool_decide_unpack _); vm_compute; exact I. }
  split; [exact H1|]. split; [reflexivity|].
  exact (c7_add_user_message_fail_fast c3_fetch c3_conv (s2l "hi")
           (WorkspaceContext.File "a.rs") "No such file" H1 eq_refl).
Defined.

(** ** C8: clear *)

(** C8: [clear] returns [Ok], empties the messages and [seen_context],
    makes [unseen_context] the union of the former seen and unseen sets and
    keeps the id. *)
Theorem c8_clear_semantics (c : Conversation) :
  snd (clear c) = Ok tt /\
  messages (fst (clear c)) = [] /\
  seen_context (fst (clear c)) = ∅ /\
  unseen_context (fst (clear c)) = seen_context c ∪ unseen_context c /\
  id (fst (clear c)) = id c.
Proof.
  simpl. repeat split. apply union_comm_L.
Qed.

(** ** C1: a stream error after some chunks *)

Definition c1_stream : list (result text) :=
  [Ok (s2l "Hello "); Ok (s2l "World"); Err "read error"].

(** C1 (counterexample): the stream yields ["Hello "], ["World"] and then a
    read error; [handle_query] returns the error and the stored conversation
    is the one before the call: no Assistant turn [Text("Hello World")] is
    recorded or persisted. *)
Lemma c1_stream_error_records_nothing :
  handle_query (fun _ => Ok []) (fun _ => Ok c1_stream) (empty "conv") (s2l "hi") =
    (empty "conv", Err "read error") /\
  messages (fst (handle_query (fun _ => Ok []) (fun _ => Ok c1_stream)
                  (empty "conv") (s2l "hi"))) = [].
Proof. split; reflexivity. Qed.

Lemma read_chunks_oks_then_err (oks : list text) e rest :
  forall full cur, read_chunks (map Ok oks ++ Err e :: rest) full cur = Err e.
Proof.
  induction oks as [|ch oks IH]; intros full cur; simpl; [reflexivity|].
  destruct (push_chars ch full cur) as [f l]. apply IH.
Qed.

(** C1 (amended): when the stream yields an error after any number of
    chunks, [handle_query] returns that error and the stored conversation
    is left as it was: nothing of the response is recorded. *)
Theorem c1_stream_error_propagates fetch generate (db : Conversation) query
    (oks : list text) e rest :
  snd (add_user_message fetch db query) = Ok tt ->
  generate (as_message_refs (fst (add_user_message fetch db query))) =
    Ok (map Ok oks ++ Err e :: rest) ->
  handle_query fetch generate db query = (db, Err e).
Proof.
  intros Hu Hg. unfold handle_query.
  destruct (add_user_message fetch db query) as [c1 r] eqn:E.
  simpl in Hu, Hg. subst r. rewrite Hg, read_chunks_oks_then_err. reflexivity.
Qed.

Lemma c1_stream_error_propagates_witness :
  handle_query (fun _ => Ok []) (fun _ => Ok c1_stream) (empty "conv") (s2l "hi") =
    (empty "conv", Err "read error").
Proof.
  apply (c1_stream_error_propagates _ _ _ _ [s2l "Hello "; s2l "World"] _ []);
    reflexivity.
Defined.

(** ** C6: chunk-boundary independence *)

Lemma push_chars_app cs :
  forall full cur f l, push_chars cs full cur = (f, l) -> f ++ l = full ++ cur ++ cs.
Proof.
  induction cs as [|c cs IH]; intros full cur f l H; simpl in H.
  - inversion H; subst. rewrite !app_nil_r. reflexivity.
  - destruct (ascii_dec c nl) as [->|Hne]; apply IH in H; rewrite H;
      rewrite <- !app_assoc; reflexivity.
Qed.

Lemma read_chunks_oks (chunks : list text) :
  forall full cur, exists f l,
    read_chunks (map Ok chunks) full cur = Ok (f, l) /\
    f ++ l = full ++ cur ++ concat chunks.
Proof.
  induction chunks as [|ch chunks IH]; intros full cur; simpl.
  - exists full, cur. rewrite app_nil_r. split; reflexivity.
  - destruct (push_chars ch full cur) as [f0 l0] eqn:E.
    apply push_chars_app in E.
    destruct (IH f0 l0) as (f & l & H1 & H2). exists f, l. split; [exact H1|].
    rewrite H2, app_assoc, E, <- !app_assoc. reflexivity.
Qed.

Lemma finish_content_app f l : finish_content f l = f ++ l.
Proof. destruct l; simpl; [rewrite app_nil_r|]; reflexivity. Qed.

(** C6: feeding any partition of a text into chunks through the loop of
    [handle_query] gives the same segments as feeding it as one chunk,
    namely [parse_message_parts] of the concatenation. *)
Theorem c6_chunk_boundary_independence (chunks : list text) :
  segment_stream (map Ok chunks) = segment_stream [Ok (concat chunks)] /\
  segment_stream (map Ok chunks) = Ok (parse_message_parts (concat chunks)).
Proof.
  assert (Hall : forall cs, segment_stream (map Ok cs) =
                            Ok (parse_message_parts (concat cs))).
  { intros cs. unfold segment_stream.
    destruct (read_chunks_oks cs [] []) as (f & l & H1 & H2).
    rewrite H1, finish_content_app, H2. reflexivity. }
  split; [|apply Hall].
  rewrite Hall. change [Ok (concat chunks)] with (map Ok [concat chunks]).
  rewrite Hall. simpl. rewrite app_nil_r. reflexivity.
Qed.

(* ------------------------------------------------------------------------ *)
(** ** Scanner lemmas *)

Lemma strip_prefix_sound p : forall l r, strip_prefix p l = Some r -> l = p ++ r.
Proof.
  induction p as [|a p IH]; intros [|b l] r H; simpl in H; try discriminate.
  - inversion H; reflexivity.
  - inversion H; reflexivity.
  - destruct (ascii_dec a b) as [->|]; [|discriminate]. simpl. f_equal. auto.
Qed.

Lemma strip_prefix_app p r : strip_prefix p (p ++ r) = Some r.
Proof.
  induction p as [|a p IH]; simpl; [reflexivity|].
  destruct (ascii_dec a a) as [_|n]; [exact IH | congruence].
Qed.

Lemma take_until_sound d l :
  forall pre post, take_until d l = Some (pre, post) ->
  l = pre ++ d :: post /\ ~ In d pre.
Proof.
  induction l as [|c l IH]; intros pre post H; simpl in H; [discriminate|].
  destruct (ascii_dec c d) as [->|Hne].
  - inversion H; subst. split; [reflexivity | intros []].
  - destruct (take_until d l) as [[pre' post']|] eqn:E; [|discriminate].
    inversion H; subst. destruct (IH _ _ eq_refl) as [-> Hn].
    split; [reflexivity|]. intros [Heq|Hin]; [congruence | exact (Hn Hin)].
Qed.

Lemma take_until_app d pre post :
  ~ In d pre -> take_until d (pre ++ d :: post) = Some (pre, post).
Proof.
  induction pre as [|c pre IH]; intros Hn; simpl.
  - destruct (ascii_dec d d) as [_|n]; [reflexivity | congruence].
  - destruct (ascii_dec c d) as [->|Hne]; [exfalso; apply Hn; left; reflexivity|].
    rewrite IH; [reflexivity|]. intros Hin; apply Hn; right; exact Hin.
Qed.

Lemma find_sub_sound n l :
  forall pre post, find_sub n l = Some (pre, post) -> l = pre ++ n ++ post.
Proof.
  induction l as [|c l IH]; intros pre post H; simpl in H.
  - destruct (strip_prefix n []) eqn:E; [|discriminate].
    inversion H; subst. apply strip_prefix_sound in E. exact E.
  - destruct (strip_prefix n (c :: l)) eqn:E.
    + inversion H; subst. apply strip_prefix_sound in E. exact E.
    + destruct (find_sub n l) as [[pre' post']|] eqn:E2; [|discriminate].
      inversion H; subst. simpl. f_equal. auto.
Qed.

Lemma find_sub_complete n a b :
  exists pre post, find_sub n (a ++ n ++ b) = Some (pre, post).
Proof.
  induction a as [|c a IH]; simpl.
  - pose proof (strip_prefix_app n b) as H.
    destruct (n ++ b) as [|x l]; simpl; rewrite H; eexists _, _; reflexivity.
  - destruct (strip_prefix n (c :: a ++ n ++ b)); [eexists _, _; reflexivity|].
    destruct IH as (pre & post & ->). eexists _, _; reflexivity.
Qed.

Lemma find_sub_none_not_infix n l : find_sub n l = None -> ~ infix n l.
Proof.
  intros H (a & b & ->). destruct (find_sub_complete n a b) as (pre & post & E).
  congruence.
Qed.

Lemma skip_ws_sound l : exists ws, l = ws ++ skip_ws l /\ ~ In ">"%char ws.
Proof.
  induction l as [|c l IH]; simpl.
  - exists []. split; [reflexivity | intros []].
  - destruct (is_space c) eqn:Hs.
    + destruct IH as (ws & Heq & Hn). exists (c :: ws). split; [simpl; f_equal; exact Heq|].
      intros [->|Hin]; [discriminate Hs | exact (Hn Hin)].
    + exists []. split; [reflexivity | intros []].
Qed.

(** Soundness of the search: a found match decomposes its input as the
    regex describes. *)
Lemma match_at_sound l attrs body rest :
  match_at l = Some ((attrs, body), rest) ->
  exists attrs', l = open_tag ++ attrs' ++ (">"%char :: body ++ close_tag ++ rest) /\
                 ~ In ">"%char attrs'.
Proof.
  unfold match_at.
  destruct (strip_prefix open_tag l) as [r|] eqn:E1; [|discriminate].
  destruct (take_until ">"%char (skip_ws r)) as [[a r2]|] eqn:E2; [|discriminate].
  destruct (find_sub close_tag r2) as [[b rs]|] eqn:E3; [|discriminate].
  intros H. inversion H; subst.
  apply strip_prefix_sound in E1. apply take_until_sound in E2 as [E2 Hn].
  apply find_sub_sound in E3. destruct (skip_ws_sound r) as (ws & Hws & Hnws).
  exists (ws ++ attrs). split.
  - rewrite E1, Hws, E2, E3. rewrite <- !app_assoc. reflexivity.
  - intros Hin. apply in_app_or in Hin as [Hin|Hin]; auto.
Qed.

Lemma find_leftmost_sound l :
  forall pre attrs body rest,
  find_leftmost l = Some (pre, (attrs, body), rest) ->
  exists attrs', l = pre ++ open_tag ++ attrs' ++ (">"%char :: body ++ close_tag ++ rest) /\
                 ~ In ">"%char attrs'.
Proof.
  induction l as [|c l IH]; intros pre attrs body rest H; simpl in H.
  - vm_compute in H. discriminate H.
  - destruct (match_at (c :: l)) as [[[a b] r]|] eqn:E.
    + inversion H; subst. apply match_at_sound in E. exact E.
    + destruct (find_leftmost l) as [[[pre' cap] rest']|] eqn:E2; [|discriminate].
      inversion H; subst. destruct (IH _ _ _ _ eq_refl) as (a' & Heq & Hn).
      exists a'. split; [rewrite Heq; reflexivity | exact Hn].
Qed.

Lemma find_leftmost_none_of_no_pair l : ~ has_marker_pair l -> find_leftmost l = None.
Proof.
  intros Hno. destruct (find_leftmost l) as [[[pre [attrs body]] rest]|] eqn:E; [|reflexivity].
  exfalso. apply find_leftmost_sound in E as (a' & Heq & Hn).
  apply Hno. exists pre, a', body, rest. split; assumption.
Qed.

Lemma marker_pair_has_close s : has_marker_pair s -> infix close_tag s.
Proof.
  intros (pre & attrs & body & post & -> & _).
  exists (pre ++ open_tag ++ attrs ++ ">"%char :: body), post.
  rewrite <- !app_assoc. reflexivity.
Qed.

Lemma captures_iter_no_match fuel l :
  find_leftmost l = None -> captures_iter fuel l = ([], l).
Proof. intros H. destruct fuel; simpl; [reflexivity | rewrite H; reflexivity]. Qed.

(** ** C9: an unterminated marker degrades to text *)

(** C9: an input that contains an opening [ClaippyArtifact] marker but no
    complete marker pair is returned as the single text part holding the
    whole input. *)
Theorem c9_unterminated_marker_is_text (s : text) :
  infix open_tag s -> ~ has_marker_pair s ->
  parse_message_parts s = [MessageParts.Markdown s].
Proof.
  intros (a & b & ->) Hno. unfold parse_message_parts.
  rewrite captures_iter_no_match by (apply find_leftmost_none_of_no_pair; exact Hno).
  simpl. destruct a; reflexivity.
Qed.

Lemma c9_unterminated_marker_is_text_witness :
  infix open_tag c9_input /\ ~ has_marker_pair c9_input /\
  parse_message_parts c9_input = [MessageParts.Markdown c9_input].
Proof.
  assert (H1 : infix open_tag c9_input).
  { exists (s2l "before "), (s2l " identifier=" ++ [dq] ++ s2l "x" ++ [dq] ++ s2l ">body").
    reflexivity. }
  assert (H2 : ~ has_marker_pair c9_input).
  { intros Hp. apply (find_sub_none_not_infix close_tag c9_input).
    - vm_compute. reflexivity.
    - apply marker_pair_has_close. exact Hp. }
  split; [exact H1|]. split; [exact H2|].
  exact (c9_unterminated_marker_is_text c9_input H1 H2).
Defined.

(** ** Skipping text in which no match starts *)

Lemma no_start_infix p a X x :
  ~ infix p a -> ~ In x (tl p) -> X = [] \/ hd_error X = Some x -> no_start p a X.
Proof.
  intros Hni Htl HX a1 a2 Ha Hne.
  destruct (strip_prefix p (a2 ++ X)) as [r|] eqn:E; [|reflexivity]. exfalso.
  apply strip_prefix_sound, app_eq_app in E as (l & [[E1 E2] | [E1 E2]]).
  - apply Hni. exists a1, l. rewrite Ha, E1. reflexivity.
  - destruct l as [|y l'].
    + apply Hni. exists a1, []. rewrite Ha, E1, !app_nil_r. reflexivity.
    + destruct a2 as [|z a2']; [congruence|].
      destruct HX as [HX|HX]; rewrite E2 in HX; [discriminate|].
      simpl in HX. inversion HX; subst y.
      apply Htl. rewrite E1. simpl. apply in_or_app. right. left. reflexivity.
Qed.

Lemma forallb_in (f : ascii -> bool) l c : forallb f l = true -> In c l -> f c = true.
Proof. intros H Hin. rewrite forallb_forall in H. auto. Qed.

Lemma existsb_forallb_false (f : ascii -> bool) l :
  existsb (fun c => negb (f c)) l = true -> forallb f l = true -> False.
Proof.
  intros He Hf. apply existsb_exists in He as (c & Hin & Hc).
  rewrite (forallb_in f l c Hf Hin) in Hc. discriminate.
Qed.

Lemma forallb_app_inv (f : ascii -> bool) l1 l2 :
  forallb f (l1 ++ l2) = true -> forallb f l1 = true /\ forallb f l2 = true.
Proof. rewrite forallb_app. apply andb_prop. Qed.

Lemma no_start_class (P : ascii -> bool) p a X x :
  forallb P a = true ->
  existsb (fun c => negb (P c)) p = true ->
  cross_ok P x p = true ->
  X = [] \/ hd_error X = Some x -> no_start p a X.
Proof.
  intros Ha Hex Hcross HX a1 a2 Hsplit Hne.
  rewrite Hsplit in Ha. apply forallb_app_inv in Ha as [_ Ha2].
  destruct (strip_prefix p (a2 ++ X)) as [r|] eqn:E; [|reflexivity]. exfalso.
  apply strip_prefix_sound, app_eq_app in E as (l & [[E1 E2] | [E1 E2]]).
  - rewrite E1 in Ha2. apply forallb_app_inv in Ha2 as [Hp _].
    exact (existsb_forallb_false P p Hex Hp).
  - destruct l as [|y l'].
    + rewrite app_nil_r in E1. subst p. exact (existsb_forallb_false P a2 Hex Ha2).
    + destruct HX as [HX|HX]; rewrite E2 in HX; [discriminate|].
      simpl in HX. inversion HX; subst y.
      unfold cross_ok in Hcross. rewrite forallb_forall in Hcross.
      specialize (Hcross (length a2)).
      assert (Hk : In (length a2) (seq 1 (length p))).
      { apply in_seq. rewrite E1, length_app. simpl.
        destruct a2; [congruence|]. simpl. lia. }
      specialize (Hcross Hk). rewrite E1, nth_error_app2, Nat.sub_diag in Hcross by lia.
      simpl in Hcross. destruct (ascii_dec x x) as [_|n]; [|congruence].
      rewrite firstn_app, Nat.sub_diag, firstn_all, app_nil_r in Hcross.
      exact (existsb_forallb_false P a2 Hcross Ha2).
Qed.

Lemma no_start_head y p' a X : ~ In y a -> no_start (y :: p') a X.
Proof.
  intros Hn a1 [|z a2] Ha Hne; [congruence|]. simpl.
  destruct (ascii_dec y z) as [->|]; [|reflexivity].
  exfalso. apply Hn. rewrite Ha. apply in_or_app. right. left. reflexivity.
Qed.

Lemma no_start_cons p c a X : no_start p (c :: a) X -> no_start p a X.
Proof. intros H a1 a2 Ha. apply (H (c :: a1)). rewrite Ha. reflexivity. Qed.

Lemma no_start_here p c a X : no_start p (c :: a) X -> strip_prefix p (c :: a ++ X) = None.
Proof. intros H. apply (H [] (c :: a)); [reflexivity | discriminate]. Qed.

Lemma find_leftmost_skip a X :
  no_start open_tag a X ->
  find_leftmost (a ++ X) =
    match find_leftmost X with
    | Some (pre, cap, rest) => Some (a ++ pre, cap, rest)
    | None => None
    end.
Proof.
  induction a as [|c a IH]; intros H; simpl.
  - destruct (find_leftmost X) as [[[? ?] ?]|]; reflexivity.
  - assert (Hm : match_at (c :: a ++ X) = None).
    { unfold match_at. rewrite (no_start_here _ _ _ _ H). reflexivity. }
    rewrite Hm, IH by (exact (no_start_cons _ _ _ _ H)).
    destruct (find_leftmost X) as [[[? ?] ?]|]; reflexivity.
Qed.

Lemma find_sub_skip n a X :
  no_start n a X ->
  find_sub n (a ++ X) =
    match find_sub n X with
    | Some (pre, post) => Some (a ++ pre, post)
    | None => None
    end.
Proof.
  induction a as [|c a IH]; intros H; simpl.
  - destruct (find_sub n X) as [[? ?]|]; reflexivity.
  - rewrite (no_start_here _ _ _ _ H), IH by (exact (no_start_cons _ _ _ _ H)).
    destruct (find_sub n X) as [[? ?]|]; reflexivity.
Qed.

Lemma find_attr_skip name a X :
  no_start (name ++ ["="%char; dq]) a X -> find_attr name (a ++ X) = find_attr name X.
Proof.
  induction a as [|c a IH]; intros H; simpl; [reflexivity|].
  unfold attr_at at 1. rewrite (no_start_here _ _ _ _ H).
  apply IH, (no_start_cons _ _ _ _ H).
Qed.

Lemma find_leftmost_here l cap rest :
  match_at l = Some (cap, rest) -> find_leftmost l = Some ([], cap, rest).
Proof.
  intros H. destruct l as [|c l]; [vm_compute in H; discriminate H|].
  simpl. rewrite H. reflexivity.
Qed.

(** ** One serialised artifact is matched back *)

Ltac not_in_concrete :=
  let H := fresh in intros H; vm_compute in H;
  repeat (destruct H as [H|H]; [discriminate H|]); exact H.

Lemma not_in_app (c : ascii) l1 l2 : ~ In c l1 -> ~ In c l2 -> ~ In c (l1 ++ l2).
Proof. intros H1 H2 H. apply in_app_or in H as [H|H]; auto. Qed.

Lemma not_in_of_forallb (f : ascii -> bool) l c : forallb f l = true -> f c = false -> ~ In c l.
Proof. intros H Hc Hin. rewrite (forallb_in f l c H Hin) in Hc. discriminate. Qed.

Lemma find_sub_here n l r : strip_prefix n l = Some r -> find_sub n l = Some ([], r).
Proof. intros H. destruct l; simpl; rewrite H; reflexivity. Qed.

Lemma find_attr_here name l v : attr_at name l = Some v -> find_attr name l = Some v.
Proof. intros H. destruct l; simpl; rewrite H; reflexivity. Qed.

Lemma artifact_open_eq i l :
  artifact_open i l = open_tag ++ " "%char :: artifact_attrs i l ++ [">"%char].
Proof. unfold artifact_open, artifact_attrs. rewrite <- !app_assoc. reflexivity. Qed.

Lemma id_not_dq i : forallb id_char i = true -> ~ In dq i.
Proof. intros H. apply (not_in_of_forallb id_char); [exact H | reflexivity]. Qed.

Lemma attrs_no_gt i l c : part_ok (MessageParts.Artifact i l c) ->
  ~ In ">"%char (artifact_attrs i l).
Proof.
  intros (_ & Hi & Hl & _). unfold artifact_attrs.
  apply not_in_app; [not_in_concrete|]. apply not_in_app; [not_in_concrete|].
  apply not_in_app; [apply (not_in_of_forallb id_char); [exact Hi | reflexivity]|].
  apply not_in_app; [not_in_concrete|].
  destruct l as [l'|]; [|intros []].
  destruct Hl as [_ Hl'].
  apply not_in_app; [not_in_concrete|]. apply not_in_app; [not_in_concrete|].
  apply not_in_app; [apply (not_in_of_forallb lang_char); [exact Hl' | reflexivity]|].
  not_in_concrete.
Qed.

Lemma match_at_artifact i l c Y :
  part_ok (MessageParts.Artifact i l c) ->
  match_at (flatten_part (MessageParts.Artifact i l c) ++ Y) =
    Some ((artifact_attrs i l, c), Y).
Proof.
  intros Hok. pose proof (attrs_no_gt i l c Hok) as Hgt.
  destruct Hok as (_ & _ & _ & Hc).
  unfold flatten_part. rewrite artifact_open_eq. unfold match_at.
  replace (((open_tag ++ " "%char :: artifact_attrs i l ++ [">"%char]) ++ c ++ close_tag) ++ Y)
    with (open_tag ++ (" "%char :: artifact_attrs i l ++ ">"%char :: (c ++ close_tag ++ Y)))
    by (rewrite <- !app_assoc; cbn [app]; rewrite <- !app_assoc; reflexivity).
  rewrite strip_prefix_app.
  change (skip_ws (" "%char :: artifact_attrs i l ++ ">"%char :: (c ++ close_tag ++ Y)))
    with (artifact_attrs i l ++ ">"%char :: (c ++ close_tag ++ Y)).
  rewrite take_until_app by exact Hgt.
  rewrite find_sub_skip.
  - rewrite (find_sub_here close_tag (close_tag ++ Y) Y (strip_prefix_app _ _)).
    rewrite app_nil_r. reflexivity.
  - apply (no_start_infix _ _ _ "<"%char); [exact Hc | not_in_concrete | right; reflexivity].
Qed.

Lemma artifact_of_attrs i l c :
  part_ok (MessageParts.Artifact i l c) ->
  artifact_of_capture (artifact_attrs i l, c) = MessageParts.Artifact i l c.
Proof.
  intros (Hne & Hi & Hl & _). unfold artifact_of_capture.
  set (M := match l with
            | Some l' => s2l " language=" ++ [dq] ++ l' ++ [dq]
            | None => []
            end).
  assert (Hid : find_attr (s2l "identifier") (artifact_attrs i l) = Some i).
  { apply find_attr_here.
    change (artifact_attrs i l) with ((s2l "identifier" ++ ["="%char; dq]) ++ (i ++ dq :: M)).
    unfold attr_at. rewrite strip_prefix_app, take_until_app by exact (id_not_dq i Hi).
    destruct i; [congruence | reflexivity]. }
  rewrite Hid. simpl default. f_equal.
  change (artifact_attrs i l) with ((s2l "identifier=" ++ [dq]) ++ (i ++ dq :: M)).
  rewrite find_attr_skip by (apply no_start_head; not_in_concrete).
  rewrite find_attr_skip.
  2:{ apply (no_start_class id_char _ _ _ dq); [exact Hi | reflexivity | reflexivity |].
      right; reflexivity. }
  destruct l as [l'|]; [|reflexivity].
  destruct Hl as [Hl'ne Hl'].
  change (dq :: M) with ([dq; " "%char] ++ ((s2l "language" ++ ["="%char; dq]) ++ l' ++ [dq])).
  rewrite find_attr_skip by (apply no_start_head; not_in_concrete).
  apply find_attr_here. unfold attr_at.
  rewrite strip_prefix_app, take_until_app.
  - destruct l'; [congruence | reflexivity].
  - apply (not_in_of_forallb lang_char); [exact Hl' | reflexivity].
Qed.

(** ** The round trip *)

Lemma captures_iter_S f l :
  captures_iter (S f) l =
    match find_leftmost l with
    | None => ([], l)
    | Some (pre, cap, rest) =>
        let '(caps, tail) := captures_iter f rest in ((pre, cap) :: caps, tail)
    end.
Proof. reflexivity. Qed.

Lemma flatten_cons p N : flatten (p :: N) = flatten_part p ++ flatten N.
Proof. reflexivity. Qed.

Lemma artifact_text_head i l c Y :
  hd_error (flatten_part (MessageParts.Artifact i l c) ++ Y) = Some "<"%char.
Proof. unfold flatten_part. rewrite artifact_open_eq. reflexivity. Qed.

Lemma find_leftmost_artifact i l c Y :
  part_ok (MessageParts.Artifact i l c) ->
  find_leftmost (flatten_part (MessageParts.Artifact i l c) ++ Y) =
    Some ([], (artifact_attrs i l, c), Y).
Proof. intros Hok. apply find_leftmost_here, match_at_artifact, Hok. Qed.

Lemma count_le_length N : count_artifacts N <= length (flatten N).
Proof.
  induction N as [|[t|i l c] N IH]; [simpl; lia| |];
    rewrite flatten_cons, length_app; cbn [count_artifacts]; [lia|].
  unfold flatten_part. rewrite artifact_open_eq, !length_app. simpl. lia.
Qed.

Lemma roundtrip_merged n :
  forall N, length N <= n -> merged N -> Forall part_ok N ->
  forall fuel, count_artifacts N <= fuel ->
  exists caps tail, captures_iter fuel (flatten N) = (caps, tail) /\
                    flat_map parts_of_capture caps ++ tail_part tail = N.
Proof.
  induction n as [|n IH]; intros N Hlen Hm Hok fuel Hfuel.
  - destruct N; [|simpl in Hlen; lia].
    exists [], []. split; [|reflexivity].
    apply captures_iter_no_match. reflexivity.
  - destruct N as [|[t|i l c] N1].
    + exists [], []. split; [|reflexivity].
      apply captures_iter_no_match. reflexivity.
    + destruct Hm as (Ht & Hnext & Hm1). inversion Hok as [|? ? Hokt Hok1]; subst.
      destruct N1 as [|[u|i l c] N2].
      * exists [], (t ++ []). split.
        -- apply captures_iter_no_match. simpl flatten.
           rewrite find_leftmost_skip; [reflexivity|].
           apply (no_start_infix _ _ _ "<"%char); [exact Hokt | not_in_concrete | left; reflexivity].
        -- rewrite app_nil_r. destruct t; [congruence | reflexivity].
      * contradiction.
      * inversion Hok1 as [|? ? Hoka Hok2]; subst.
        destruct fuel as [|f]; [simpl in Hfuel; lia|].
        rewrite flatten_cons, flatten_cons, captures_iter_S.
        rewrite find_leftmost_skip.
        2:{ apply (no_start_infix _ _ _ "<"%char);
              [exact Hokt | not_in_concrete | right; apply artifact_text_head]. }
        rewrite find_leftmost_artifact by exact Hoka.
        destruct (IH N2) with (fuel := f) as (caps & tail & E & R);
          [simpl in Hlen; lia | exact Hm1 | exact Hok2 | simpl in Hfuel; lia |].
        rewrite E. eexists _, _. split; [reflexivity|].
        cbn [flat_map]. rewrite app_nil_r, <- app_assoc, R.
        unfold parts_of_capture. rewrite artifact_of_attrs by exact Hoka.
        destruct t; [congruence | reflexivity].
    + inversion Hok as [|? ? Hoka Hok1]; subst.
      destruct fuel as [|f]; [simpl in Hfuel; lia|].
      rewrite flatten_cons, captures_iter_S, find_leftmost_artifact by exact Hoka.
      destruct (IH N1) with (fuel := f) as (caps & tail & E & R);
        [simpl in Hlen; lia | exact Hm | exact Hok1 | simpl in Hfuel; lia |].
      rewrite E. eexists _, _. split; [reflexivity|].
      cbn [flat_map]. rewrite <- app_assoc, R.
      unfold parts_of_capture. rewrite artifact_of_attrs by exact Hoka. reflexivity.
Qed.

Lemma flatten_merge_text S : flatten (merge_text S) = flatten S.
Proof.
  induction S as [|[t|i l c] S IH]; [reflexivity| |].
  - simpl merge_text. rewrite flatten_cons, <- IH.
    destruct (merge_text S) as [|[u|i l c] R].
    + destruct t; reflexivity.
    + rewrite !flatten_cons. simpl. rewrite app_assoc. reflexivity.
    + destruct t; reflexivity.
  - simpl merge_text. rewrite !flatten_cons, IH. reflexivity.
Qed.

Lemma merged_merge_text S : merged (merge_text S).
Proof.
  induction S as [|[t|i l c] S IH]; [exact I| |exact IH].
  simpl merge_text. destruct (merge_text S) as [|[u|i l c] R].
  - destruct t; simpl; [exact I | repeat split; congruence].
  - destruct IH as (Hu & Hn & HR). simpl. repeat split; try assumption.
    intros Htu. apply app_nil in Htu as [_ ->]. congruence.
  - destruct t; [exact IH|]. simpl. repeat split; [congruence | exact IH].
Qed.

(** ** C5: the round-trip law *)

(** C5 (counterexample): an artifact whose body holds the closing marker
    [</ClaippyArtifact>] does not survive serialisation and
    [parse_message_parts]: the body is cut at the first closing marker and
    the rest comes back as text. *)
Lemma c5_body_with_closing_marker :
  parse_message_parts (flatten c5_parts) =
    [MessageParts.Artifact (s2l "x") None (s2l "a");
     MessageParts.Markdown (s2l "b</ClaippyArtifact>")] /\
  merge_text (parse_message_parts (flatten c5_parts)) <> merge_text c5_parts.
Proof. split; [reflexivity | vm_compute; discriminate]. Qed.

(** C5 (amended): serialising a sequence of parts and running
    [parse_message_parts] on the result gives back the sequence with
    adjacent text parts merged (and empty ones dropped), provided the merged
    text parts hold no opening marker [<ClaippyArtifact], every identifier
    is non-empty with no quote, [>] or [=], every language is absent or
    non-empty with no quote or [>], and no artifact body holds the closing
    marker. *)
Theorem c5_roundtrip_wellformed (S : list MessageParts) :
  Forall part_ok (merge_text S) ->
  parse_message_parts (flatten S) = merge_text S.
Proof.
  intros Hok. rewrite <- flatten_merge_text. unfold parse_message_parts.
  destruct (roundtrip_merged (length (merge_text S)) (merge_text S) (le_n _)
              (merged_merge_text S) Hok (length (flatten (merge_text S)))
              (count_le_length _)) as (caps & tail & E & R).
  rewrite E. exact R.
Qed.

Lemma c5_roundtrip_wellformed_witness :
  Forall part_ok (merge_text c5_ok_parts) /\
  parse_message_parts (flatten c5_ok_parts) = merge_text c5_ok_parts.
Proof.
  assert (H : Forall part_ok (merge_text c5_ok_parts)).
  { vm_compute merge_text. repeat constructor.
    - apply find_sub_none_not_infix. reflexivity.
    - discriminate.
    - discriminate.
    - apply find_sub_none_not_infix. reflexivity.
    - apply find_sub_none_not_infix. reflexivity. }
  split; [exact H | exact (c5_roundtrip_wellformed c5_ok_parts H)].
Defined.

(** ** C10: [extract_from_message] looks for the tag [ClippyArtifact] *)

Lemma find_sub_line_sound n l :
  forall pre post, find_sub_line n l = Some (pre, post) -> l = pre ++ n ++ post.
Proof.
  induction l as [|c l IH]; intros pre post H; simpl in H.
  - destruct (strip_prefix n []) eqn:E; [|discriminate].
    inversion H; subst. apply strip_prefix_sound in E. exact E.
  - destruct (strip_prefix n (c :: l)) eqn:E.
    + inversion H; subst. apply strip_prefix_sound in E. exact E.
    + destruct (ascii_dec c nl); [discriminate|].
      destruct (find_sub_line n l) as [[pre' post']|] eqn:E2; [|discriminate].
      inversion H; subst. simpl. f_equal. auto.
Qed.

Lemma find_block_sound l m :
  find_block l = Some m ->
  (exists body, m = open_tag ++ body ++ close_tag) /\ infix m l.
Proof.
  revert m. induction l as [|c l IH]; intros m H.
  - vm_compute in H. discriminate H.
  - simpl in H. destruct (match_block_at (c :: l)) as [m'|] eqn:E.
    + inversion H; subst m'. unfold match_block_at in E.
      destruct (strip_prefix open_tag (c :: l)) as [r|] eqn:E1; [|discriminate].
      destruct (find_sub_line close_tag r) as [[body rest]|] eqn:E2; [|discriminate].
      inversion E; subst m. apply strip_prefix_sound in E1.
      apply find_sub_line_sound in E2.
      split; [exists body; reflexivity|]. exists [], rest.
      rewrite E1, E2. simpl. rewrite <- ?app_assoc. reflexivity.
    + destruct (IH m H) as [Hb (a & b & Hab)]. split; [exact Hb|].
      exists (c :: a), b. rewrite Hab. reflexivity.
Qed.

Lemma find_none_of_all_false {A} (f : A -> bool) l :
  (forall x, In x l -> f x = false) -> find f l = None.
Proof.
  induction l as [|x l IH]; intros H; simpl; [reflexivity|].
  rewrite (H x (or_introl eq_refl)). apply IH. intros y Hy. apply H. right. exact Hy.
Qed.

Lemma infix_trans p m l : infix p m -> infix m l -> infix p l.
Proof.
  intros (a & b & ->) (c & d & ->). exists (c ++ a), (b ++ d).
  rewrite <- !app_assoc. reflexivity.
Qed.

Lemma is_tag_true name n : is_tag name n = true -> tag_name n = name.
Proof. unfold is_tag. destruct (list_eq_dec ascii_dec (tag_name n) name); congruence. Qed.

(** C10: for a parser with the two properties of [xml_parser_ok],
    [extract_from_message] returns [None] whenever no element strictly
    inside the matched [ClaippyArtifact] block has the local name
    [ClippyArtifact] (the root element of the block is named
    [ClaippyArtifact]); in particular it returns [None] for every message
    that contains neither the text [<ClippyArtifact] nor the text
    [:ClippyArtifact]. *)
Theorem c10_extract_needs_misspelled_tag (xml_parse : text -> option xml_node) :
  xml_parser_ok xml_parse ->
  (forall message,
     (forall m root, find_block message = Some m -> xml_parse m = Some root ->
        forall d, In d (nested root) -> tag_name d <> s2l "ClippyArtifact") ->
     extract_from_message xml_parse message = None) /\
  (forall message, ~ infix (s2l "<ClippyArtifact") message ->
     ~ infix (s2l ":ClippyArtifact") message ->
     extract_from_message xml_parse message = None).
Proof.
  intros [Hroot Hstart]. split.
  - intros message Hnest. unfold extract_from_message.
    destruct (find_block message) as [m|] eqn:Eb; [|reflexivity].
    destruct (find_block_sound _ _ Eb) as [[body ->] _].
    unfold parse_artifact_xml.
    destruct (xml_parse (open_tag ++ body ++ close_tag)) as [root|] eqn:Ep; [|reflexivity].
    assert (Hn : tag_name root = CLAIPPY_ARTIFACT).
    { apply (Hroot (open_tag ++ body)). rewrite <- app_assoc. exact Ep. }
    destruct root as [nm attrs cs | t]; [|vm_compute in Hn; discriminate Hn].
    simpl in Hn. subst nm.
    rewrite find_none_of_all_false; [reflexivity|].
    intros x [<- | Hx].
    + unfold is_tag. destruct (list_eq_dec _ _ _) as [e|]; [vm_compute in e; discriminate e | reflexivity].
    + destruct (is_tag (s2l "ClippyArtifact") x) eqn:Ex; [|reflexivity].
      exfalso. apply (Hnest _ _ eq_refl Ep x Hx). apply is_tag_true, Ex.
  - intros message Hno Hno'. unfold extract_from_message.
    destruct (find_block message) as [m|] eqn:Eb; [|reflexivity].
    destruct (find_block_sound _ _ Eb) as [_ Hinf].
    unfold parse_artifact_xml.
    destruct (xml_parse m) as [root|] eqn:Ep; [|reflexivity].
    rewrite find_none_of_all_false; [reflexivity|].
    intros x Hx. destruct (is_tag (s2l "ClippyArtifact") x) eqn:Ex; [|reflexivity].
    exfalso. apply is_tag_true in Ex.
    assert (Hne : tag_name x <> []) by (rewrite Ex; discriminate).
    destruct (Hstart m root Ep x Hx Hne) as [Hi|Hi]; rewrite Ex in Hi.
    + apply Hno. apply (infix_trans _ m); [exact Hi | exact Hinf].
    + apply Hno'. apply (infix_trans _ m); [exact Hi | exact Hinf].
Qed.

Lemma c10_extract_needs_misspelled_tag_witness :
  xml_parser_ok c10_parse /\
  find_block c10_message = Some c10_block /\
  c10_parse c10_block <> None /\
  extract_from_message c10_parse c10_message = None.
Proof.
  assert (Hok : xml_parser_ok c10_parse).
  { split.
    - intros pre root H. unfold c10_parse in H.
      destruct (list_eq_dec _ _ _); [inversion H; reflexivity | discriminate H].
    - intros m root H d Hd Hne. unfold c10_parse in H.
      destruct (list_eq_dec _ _ _) as [->|]; [|discriminate H].
      inversion H; subst root. destruct Hd as [<- | [<- | []]].
      + left. exists [], (skipn 16 c10_block). vm_compute. reflexivity.
      + exfalso. apply Hne. reflexivity. }
  split; [exact Hok|]. split; [vm_compute; reflexivity|].
  split; [vm_compute; discriminate|].
  apply (proj2 (c10_extract_needs_misspelled_tag c10_parse Hok));
    apply find_sub_none_not_infix; vm_compute; reflexivity.
Defined.

(** C10 (counterexample): a reply in the documented [ClaippyArtifact]
    convention whose content holds [<p:ClippyArtifact xmlns:p="u" ...>]
    is extracted, for a parser with the properties of [xml_parser_ok] that
    gives its document tree, although the reply does not contain the text
    [<ClippyArtifact]: roxmltree's [tag_name().name()] is the local name. *)
Lemma c10_namespaced_nested_extracted :
  xml_parser_ok c10_ns_parse /\
  ~ infix (s2l "<ClippyArtifact") c10_ns_block /\
  find_block c10_ns_block = Some c10_ns_block /\
  extract_from_message c10_ns_parse c10_ns_block
  = Some {| art_id := s2l "x"; art_language := None; art_src := None; art_text := s2l "t" |}.
Proof.
  split.
  { split.
    - intros pre root H. unfold c10_ns_parse in H.
      destruct (list_eq_dec _ _ _); [inversion H; reflexivity | discriminate H].
    - intros m root H d Hd Hne. unfold c10_ns_parse in H.
      destruct (list_eq_dec _ _ _) as [->|]; [|discriminate H].
      inversion H; subst root. destruct Hd as [<- | [<- | [<- | []]]].
      + left. exists [], (skipn 16 c10_ns_block). vm_compute. reflexivity.
      + right. exists (firstn 38 c10_ns_block), (skipn 53 c10_ns_block).
        vm_compute. reflexivity.
      + exfalso. apply Hne. reflexivity. }
  split; [apply find_sub_none_not_infix; vm_compute; reflexivity|].
  split; vm_compute; reflexivity.
Qed.

(* ------------------------------------------------------------------------ *)
(** * Further properties of the code *)

(** ** Conversation and context *)

Lemma to_string_from (raw : string) :
  WorkspaceContext.to_string (WorkspaceContext.from raw) = raw.
Proof. unfold WorkspaceContext.from. destruct (_ || _); reflexivity. Qed.

(** [WorkspaceContext::from] keeps the raw string: [to_string] gives it
    back, so two raw strings give the same context exactly when they are
    equal. *)
Theorem workspace_context_from_to_string (raw : string) :
  WorkspaceContext.to_string (WorkspaceContext.from raw) = raw /\
  (forall raw', WorkspaceContext.from raw = WorkspaceContext.from raw' <-> raw = raw').
Proof.
  split; [apply to_string_from|]. intros raw'. split; [|intros ->; reflexivity].
  intros H. rewrite <- (to_string_from raw), <- (to_string_from raw'), H. reflexivity.
Qed.

Lemma retrieve_ok fetch w contents :
  fetch w = Ok contents -> WorkspaceContext.retrieve fetch w = Ok (context_block w contents).
Proof. intros H. unfold WorkspaceContext.retrieve. rewrite H. destruct w; reflexivity. Qed.

Lemma drain_loop_ok fetch (contents : WorkspaceContext -> text) ctxs :
  (forall w, In w ctxs -> fetch w = Ok (contents w)) ->
  forall um seen, drain_loop fetch ctxs um seen =
    (um ++ concat (map (fun w => context_block w (contents w) ++ [nl]) ctxs),
     list_to_set ctxs ∪ seen, Ok tt).
Proof.
  induction ctxs as [|x xs IH]; intros Hf um seen; cbn [drain_loop].
  - rewrite app_nil_r. f_equal. f_equal. set_solver.
  - rewrite (retrieve_ok _ _ _ (Hf x (or_introl eq_refl))). cbv beta iota.
    rewrite IH by (intros w Hw; apply Hf; right; exact Hw).
    cbn [map concat]. rewrite <- !app_assoc. f_equal.
    rewrite list_to_set_cons. f_equal. set_solver.
Qed.

Lemma drain_loop_ok_seen fetch ctxs :
  forall um seen um' seen' u, drain_loop fetch ctxs um seen = (um', seen', Ok u) ->
  seen' = list_to_set ctxs ∪ seen.
Proof.
  induction ctxs as [|x xs IH]; intros um seen um' seen' u H; simpl in H.
  - inversion H; subst. simpl. set_solver.
  - destruct (WorkspaceContext.retrieve fetch x) as [w|e]; [|discriminate H].
    apply IH in H. rewrite H. simpl. set_solver.
Qed.

Lemma add_user_message_ok fetch (contents : WorkspaceContext -> text) c msg :
  (forall w, w ∈ unseen_context c -> fetch w = Ok (contents w)) ->
  add_user_message fetch c msg =
    ({| id := id c; unseen_context := ∅;
        seen_context := unseen_context c ∪ seen_context c;
        messages := messages c ++
          [user_message (concat (map (fun w => context_block w (contents w) ++ [nl])
                                     (elements (unseen_context c))) ++ msg)] |}, Ok tt).
Proof.
  intros Hf. unfold add_user_message.
  rewrite (drain_loop_ok fetch contents).
  - rewrite list_to_set_elements_L. reflexivity.
  - intros w Hw. apply Hf. apply elem_of_elements. apply list_elem_of_In. exact Hw.
Qed.

(** When every pending context can be fetched, [add_user_message]
    succeeds: the user turn appended is the wrapped contents of the pending
    contexts, each followed by a newline, in the drain's order, then the
    message; all pending contexts become seen and none stays pending. *)
Theorem add_user_message_all_fetched fetch (contents : WorkspaceContext -> text) c msg :
  (forall w, w ∈ unseen_context c -> fetch w = Ok (contents w)) ->
  add_user_message fetch c msg =
    ({| id := id c; unseen_context := ∅;
        seen_context := unseen_context c ∪ seen_context c;
        messages := messages c ++
          [user_message (concat (map (fun w => context_block w (contents w) ++ [nl])
                                     (elements (unseen_context c))) ++ msg)] |}, Ok tt).
Proof. intros Hf. exact (add_user_message_ok fetch contents c msg Hf). Qed.

Lemma add_user_message_all_fetched_witness :
  add_user_message (fun _ => Ok (s2l "fn main() {}")) c3_conv (s2l "hi") =
    ({| id := "conv"; unseen_context := ∅;
        seen_context := unseen_context c3_conv ∪ seen_context c3_conv;
        messages := [user_message (concat (map (fun w => context_block w (s2l "fn main() {}") ++ [nl])
                                     (elements (unseen_context c3_conv))) ++ s2l "hi")] |}, Ok tt).
Proof.
  apply (add_user_message_all_fetched (fun _ => Ok (s2l "fn main() {}"))
           (fun _ => s2l "fn main() {}") c3_conv (s2l "hi")).
  intros w _. reflexivity.
Defined.

(** With no pending context, [add_user_message] never fails and never
    fetches: it appends the message, unchanged, as a user turn. *)
Theorem add_user_message_nothing_pending fetch c msg :
  unseen_context c = ∅ ->
  add_user_message fetch c msg = (set_messages c (messages c ++ [user_message msg]), Ok tt).
Proof.
  intros H. unfold add_user_message. rewrite H. rewrite elements_empty. simpl.
  destruct c as [i u s ms]. simpl in *. subst u. reflexivity.
Qed.

Lemma add_user_message_nothing_pending_witness :
  unseen_context (empty "conv") = ∅ /\
  add_user_message (fun _ => Err "unreachable") (empty "conv") (s2l "hi") =
    (set_messages (empty "conv") [user_message (s2l "hi")], Ok tt).
Proof.
  split; [reflexivity|].
  apply (add_user_message_nothing_pending (fun _ => Err "unreachable") (empty "conv") (s2l "hi")).
  reflexivity.
Defined.

(** After [clear], the next user message sends every context again: when
    they can all be fetched, the new conversation holds a single user turn
    made of the wrapped contents of all contexts, seen and pending, then the
    message; all of them are seen afterwards. *)
Theorem clear_then_user_message_resends fetch (contents : WorkspaceContext -> text) c msg :
  (forall w, w ∈ seen_context c ∪ unseen_context c -> fetch w = Ok (contents w)) ->
  add_user_message fetch (fst (clear c)) msg =
    ({| id := id c; unseen_context := ∅;
        seen_context := unseen_context c ∪ seen_context c;
        messages := [user_message (concat (map (fun w => context_block w (contents w) ++ [nl])
                         (elements (unseen_context c ∪ seen_context c))) ++ msg)] |}, Ok tt).
Proof.
  intros Hf. rewrite (add_user_message_ok fetch contents).
  - simpl. rewrite union_empty_r_L. reflexivity.
  - intros w Hw. apply Hf. simpl in Hw. set_solver.
Qed.

(** The [ls] listing shows the seen contexts and then the pending ones:
    every context of either set is listed, and one that is in both sets is
    listed at least twice. *)
Theorem context_lines_lists_both_sets (c : Conversation) (w : WorkspaceContext) :
  w ∈ seen_context c ∪ unseen_context c ->
  In (WorkspaceContext.to_string w) (context_lines c) /\
  (w ∈ seen_context c -> w ∈ unseen_context c ->
   2 <= count_occ string_dec (context_lines c) (WorkspaceContext.to_string w)).
Proof.
  assert (Hin : forall X, w ∈ X -> In (WorkspaceContext.to_string w)
                  (map WorkspaceContext.to_string (elements (X : gset WorkspaceContext)))).
  { intros X HX. apply in_map. apply list_elem_of_In. apply elem_of_elements. exact HX. }
  intros Hw. unfold context_lines. rewrite map_app. split.
  - apply elem_of_union in Hw as [Hw|Hw]; apply in_or_app; [left|right]; apply Hin; exact Hw.
  - intros Hs Hu. rewrite count_occ_app.
    pose proof (proj1 (count_occ_In string_dec _ _) (Hin _ Hs)).
    pose proof (proj1 (count_occ_In string_dec _ _) (Hin _ Hu)). lia.
Qed.

Lemma context_lines_lists_both_sets_witness :
  let c := fst (add_workspace_contexts
             (fst (add_user_message (fun _ => Ok (s2l "data"))
                (fst (add_workspace_contexts (empty "conv") ["a"%string])) (s2l "hi")))
             ["a"%string]) in
  In "a"%string (context_lines c) /\ 2 <= count_occ string_dec (context_lines c) "a"%string.
Proof.
  intros c.
  assert (Hs : WorkspaceContext.File "a" ∈ seen_context c)
    by (apply (bool_decide_unpack _); vm_compute; exact I).
  assert (Hu : WorkspaceContext.File "a" ∈ unseen_context c)
    by (apply (bool_decide_unpack _); vm_compute; exact I).
  destruct (context_lines_lists_both_sets c (WorkspaceContext.File "a")) as [H1 H2];
    [apply elem_of_union; left; exact Hs|].
  split; [exact H1 | exact (H2 Hs Hu)].
Defined.

(** A successful [handle_query] keeps the id, leaves no context pending,
    marks the pending ones seen, and appends exactly two turns: the user
    turn ending with the query, then an Assistant turn. *)
Theorem handle_query_success_appends_two_turns fetch generate (db : Conversation) query c' :
  handle_query fetch generate db query = (c', Ok tt) ->
  id c' = id db /\ unseen_context c' = ∅ /\
  seen_context c' = unseen_context db ∪ seen_context db /\
  exists um a, messages c' = messages db ++ [user_message (um ++ query); a] /\
               role (message a) = ASSISTANT_ROLE.
Proof.
  unfold handle_query, add_user_message.
  destruct (drain_loop fetch (elements (unseen_context db)) [] (seen_context db))
    as [[um seen'] r] eqn:Ed.
  destruct r as [u|e]; [|discriminate].
  apply drain_loop_ok_seen in Ed. rewrite list_to_set_elements_L in Ed.
  simpl. destruct (generate _) as [resp|e]; [|discriminate].
  destruct (read_chunks resp [] []) as [[f l]|e]; [|discriminate].
  intros H. inversion H; subst c'. simpl.
  split; [reflexivity|]. split; [reflexivity|]. split; [exact Ed|].
  eexists um, _. rewrite <- app_assoc. split; reflexivity.
Qed.

Lemma handle_query_success_appends_two_turns_witness :
  let c' := fst (handle_query (fun _ => Ok (s2l "data")) (fun _ => Ok [Ok (s2l "Hi")])
                   c3_conv (s2l "hello")) in
  id c' = "conv"%string /\ unseen_context c' = ∅ /\ length (messages c') = 2.
Proof.
  intros c'.
  assert (H : handle_query (fun _ => Ok (s2l "data")) (fun _ => Ok [Ok (s2l "Hi")])
                c3_conv (s2l "hello") = (c', Ok tt)) by reflexivity.
  destruct (handle_query_success_appends_two_turns _ _ _ _ _ H)
    as (H1 & H2 & _ & um & a & H4 & _).
  split; [exact H1|]. split; [exact H2|]. rewrite H4. reflexivity.
Defined.

(** ** The segmenter and the artifact extraction *)

Lemma find_sub_line_no_nl n l :
  forall pre post, find_sub_line n l = Some (pre, post) -> ~ In nl pre.
Proof.
  induction l as [|c l IH]; intros pre post H; simpl in H.
  - destruct (strip_prefix n []); [|discriminate]. inversion H; subst. intros [].
  - destruct (strip_prefix n (c :: l)).
    + inversion H; subst. intros [].
    + destruct (ascii_dec c nl) as [|Hne]; [discriminate|].
      destruct (find_sub_line n l) as [[pre' post']|] eqn:E2; [|discriminate].
      inversion H; subst. intros [Heq|Hin]; [congruence | exact (IH _ _ eq_refl Hin)].
Qed.

Lemma find_block_body l m :
  find_block l = Some m -> exists body, m = open_tag ++ body ++ close_tag /\ ~ In nl body.
Proof.
  revert m. induction l as [|c l IH]; intros m H.
  - vm_compute in H. discriminate H.
  - cbn [find_block] in H. destruct (match_block_at (c :: l)) as [m'|] eqn:E.
    + inversion H; subst m'. unfold match_block_at in E.
      destruct (strip_prefix open_tag (c :: l)) as [r|]; [|discriminate].
      destruct (find_sub_line close_tag r) as [[body rest]|] eqn:E2; [|discriminate].
      inversion E; subst m. exists body. split; [reflexivity|].
      exact (find_sub_line_no_nl _ _ _ _ E2).
    + exact (IH m H).
Qed.

(** The block [Artifact::extract_from_message] hands to the XML parser
    never spans a line: its pattern has no [s] flag, so an artifact whose
    body holds a newline is never extracted. *)
Theorem find_block_single_line (message m : text) :
  find_block message = Some m -> ~ In nl m.
Proof.
  intros H. destruct (find_block_body _ _ H) as (body & -> & Hb).
  intros Hin. apply in_app_or in Hin as [Hin|Hin].
  - vm_compute in Hin. repeat (destruct Hin as [Hin|Hin]; [discriminate Hin|]). exact Hin.
  - apply in_app_or in Hin as [Hin|Hin]; [exact (Hb Hin)|].
    vm_compute in Hin. repeat (destruct Hin as [Hin|Hin]; [discriminate Hin|]). exact Hin.
Qed.

Lemma find_block_single_line_witness :
  find_block (s2l "see " ++ c10_block) = Some c10_block /\ ~ In nl c10_block.
Proof.
  assert (H : find_block (s2l "see " ++ c10_block) = Some c10_block) by (vm_compute; reflexivity).
  split; [exact H | exact (find_block_single_line _ _ H)].
Defined.

Lemma merged_parts (caps : list (text * capture)) (tail : text) :
  merged (flat_map parts_of_capture caps ++ tail_part tail).
Proof.
  induction caps as [|[pre [attrs body]] caps IH]; cbn [flat_map app].
  - destruct tail as [|c t]; simpl; [exact I|]. split; [discriminate | split; exact I].
  - unfold parts_of_capture at 1. unfold artifact_of_capture.
    destruct pre as [|c p]; cbn [app merged].
    + exact IH.
    + split; [discriminate|]. split; [exact I | exact IH].
Qed.

(** The segmenter's output is in normal form: it never holds an empty
    Markdown part, nor two Markdown parts next to each other. *)
Theorem parse_message_parts_merged (full_content : text) :
  merged (parse_message_parts full_content).
Proof.
  unfold parse_message_parts.
  destruct (captures_iter (length full_content) full_content) as [caps tail].
  exact (merged_parts caps tail).
Qed.

Lemma find_attr_ok name l v : find_attr name l = Some v -> v <> [] /\ ~ In dq v.
Proof.
  induction l as [|c l IH]; intros H; cbn [find_attr] in H.
  - unfold attr_at in H. destruct (strip_prefix _ []) as [r|]; [|discriminate].
    destruct (take_until dq r) as [[v' rest]|] eqn:E; [|discriminate].
    destruct v' as [|x v'']; [discriminate|]. inversion H; subst.
    apply take_until_sound in E as [_ Hn]. split; [discriminate | exact Hn].
  - destruct (attr_at name (c :: l)) as [v'|] eqn:E0.
    + inversion H; subst v'. unfold attr_at in E0.
      destruct (strip_prefix _ _) as [r|]; [|discriminate].
      destruct (take_until dq r) as [[v' rest]|] eqn:E; [|discriminate].
      destruct v' as [|x v'']; [discriminate|]. inversion E0; subst.
      apply take_until_sound in E as [_ Hn]. split; [discriminate | exact Hn].
    + exact (IH H).
Qed.

(** Every artifact the segmenter emits has a non-empty identifier with no
    quote (the attribute's value, or ["unknown"] when there is none), and a
    language that is absent or non-empty with no quote. *)
Theorem parse_message_parts_artifact_attrs (full_content : text) :
  Forall artifact_attrs_ok (parse_message_parts full_content).
Proof.
  unfold parse_message_parts.
  destruct (captures_iter (length full_content) full_content) as [caps tail].
  apply Forall_app. split.
  - induction caps as [|[pre [attrs body]] caps IH]; cbn [flat_map]; [constructor|].
    apply Forall_app. split; [|exact IH].
    unfold parts_of_capture, artifact_of_capture. apply Forall_app. split.
    + destruct pre; repeat constructor.
    + constructor; [|constructor]. cbn [artifact_attrs_ok]. split; [|split].
      * destruct (find_attr (s2l "identifier") attrs) eqn:E;
          [apply (find_attr_ok _ _ _ E) | vm_compute; discriminate].
      * destruct (find_attr (s2l "identifier") attrs) eqn:E;
          [apply (find_attr_ok _ _ _ E)|].
        intros Hin. vm_compute in Hin.
        repeat (destruct Hin as [Hin|Hin]; [discriminate Hin|]). exact Hin.
      * destruct (find_attr (s2l "language") attrs) eqn:E; [apply (find_attr_ok _ _ _ E) | exact I].
  - destruct tail; repeat constructor.
Qed.

Lemma skip_ws_to_gt attrs Y :
  ~ In ">"%char attrs ->
  exists a2, skip_ws (attrs ++ ">"%char :: Y) = a2 ++ ">"%char :: Y /\ ~ In ">"%char a2.
Proof.
  induction attrs as [|c a IH]; intros Hn; cbn [app skip_ws].
  - exists []. split; [reflexivity | intros []].
  - destruct (is_space c).
    + apply IH. intros Hin; apply Hn; right; exact Hin.
    + exists (c :: a). split; [reflexivity | exact Hn].
Qed.

Lemma match_at_complete attrs body post :
  ~ In ">"%char attrs ->
  match_at (open_tag ++ attrs ++ ">"%char :: body ++ close_tag ++ post) <> None.
Proof.
  intros Hn. unfold match_at. rewrite strip_prefix_app.
  destruct (skip_ws_to_gt attrs (body ++ close_tag ++ post) Hn) as (a2 & E & Hn2).
  rewrite E, (take_until_app _ _ _ Hn2).
  destruct (find_sub_complete close_tag body post) as (pre & post' & E3). rewrite E3.
  discriminate.
Qed.

Lemma find_leftmost_cons c l :
  find_leftmost (c :: l) =
  match match_at (c :: l) with
  | Some (cap, rest) => Some ([], cap, rest)
  | None =>
      match find_leftmost l with
      | Some (pre, cap, rest) => Some (c :: pre, cap, rest)
      | None => None
      end
  end.
Proof. reflexivity. Qed.

Lemma find_leftmost_first l :
  forall pre cap rest, find_leftmost l = Some (pre, cap, rest) ->
  forall p1 p2 Z, pre = p1 ++ p2 -> p2 <> [] -> l = p1 ++ Z -> match_at Z = None.
Proof.
  induction l as [|c l IH]; intros pre cap rest H p1 p2 Z Hpre Hp2 Hl.
  - vm_compute in H. discriminate H.
  - rewrite find_leftmost_cons in H.
    destruct (match_at (c :: l)) as [[cap' rest']|] eqn:Em.
    + injection H as <- _ _. symmetry in Hpre. apply app_eq_nil in Hpre as [_ ->].
      congruence.
    + destruct (find_leftmost l) as [[[pre' cap'] rest']|] eqn:E2; [|discriminate].
      injection H as <- _ _.
      destruct p1 as [|x p1'].
      * simpl in Hl. subst Z. exact Em.
      * injection Hpre as _ Hpre'. injection Hl as _ Hl'.
        exact (IH _ _ _ eq_refl p1' p2 Z Hpre' Hp2 Hl').
Qed.

Lemma find_leftmost_pre_no_pair l pre cap rest :
  find_leftmost l = Some (pre, cap, rest) -> ~ has_marker_pair pre.
Proof.
  intros H (p1 & attrs & body & post & Hpre & Hn).
  destruct cap as [a b].
  destruct (find_leftmost_sound _ _ _ _ _ H) as (a' & Hl & _).
  apply (match_at_complete attrs body
           (post ++ open_tag ++ a' ++ ">"%char :: b ++ close_tag ++ rest) Hn).
  apply (find_leftmost_first l pre (a, b) rest H p1
           (open_tag ++ attrs ++ ">"%char :: body ++ close_tag ++ post)).
  - exact Hpre.
  - unfold open_tag. discriminate.
  - rewrite Hl, Hpre. rewrite <- !app_assoc. cbn [app]. rewrite <- !app_assoc. reflexivity.
Qed.

Lemma find_leftmost_at p1 Z : match_at Z <> None -> find_leftmost (p1 ++ Z) <> None.
Proof.
  induction p1 as [|c p1 IH]; intros Hz; cbn [app].
  - destruct Z as [|z Z'].
    + exfalso. apply Hz. reflexivity.
    + rewrite find_leftmost_cons.
      destruct (match_at (z :: Z')) as [[cap rest]|]; [discriminate | congruence].
  - rewrite find_leftmost_cons.
    destruct (match_at (c :: p1 ++ Z)) as [[cap rest]|]; [discriminate|].
    destruct (find_leftmost (p1 ++ Z)) as [[[pre cap] rest]|] eqn:E; [discriminate|].
    exfalso. exact (IH Hz eq_refl).
Qed.

Lemma no_pair_of_none t : find_leftmost t = None -> ~ has_marker_pair t.
Proof.
  intros H (p1 & attrs & body & post & -> & Hn).
  exact (find_leftmost_at p1 _ (match_at_complete attrs body post Hn) H).
Qed.

Lemma find_leftmost_shorter l pre cap rest :
  find_leftmost l = Some (pre, cap, rest) -> length rest < length l.
Proof.
  destruct cap as [a b]. intros H.
  destruct (find_leftmost_sound _ _ _ _ _ H) as (a' & -> & _).
  rewrite !length_app. cbn [length]. rewrite !length_app.
  unfold open_tag. cbn [length]. lia.
Qed.

Lemma captures_iter_inv fuel :
  forall l caps tail, length l <= fuel -> captures_iter fuel l = (caps, tail) ->
  find_leftmost tail = None /\ Forall (fun pc => ~ has_marker_pair (fst pc)) caps.
Proof.
  induction fuel as [|f IH]; intros l caps tail Hlen H.
  - destruct l; [|simpl in Hlen; lia]. simpl in H. inversion H; subst.
    split; [reflexivity | constructor].
  - cbn [captures_iter] in H. destruct (find_leftmost l) as [[[pre cap] rest]|] eqn:E.
    + destruct (captures_iter f rest) as [caps' tail'] eqn:E2. inversion H; subst.
      pose proof (find_leftmost_shorter _ _ _ _ E).
      destruct (IH rest caps' tail ltac:(lia) E2) as [H1 H2].
      split; [exact H1|]. constructor; [exact (find_leftmost_pre_no_pair _ _ _ _ E) | exact H2].
    + inversion H; subst. split; [exact E | constructor].
Qed.

(** No Markdown part the segmenter emits holds a complete artifact marker
    pair [<ClaippyArtifact ...>...</ClaippyArtifact>]. *)
Theorem parse_message_parts_text_has_no_artifact (full_content : text) :
  Forall text_has_no_pair (parse_message_parts full_content).
Proof.
  unfold parse_message_parts.
  destruct (captures_iter (length full_content) full_content) as [caps tail] eqn:E.
  destruct (captures_iter_inv _ _ _ _ (le_n _) E) as [Ht Hc].
  apply Forall_app. split.
  - clear E. induction Hc as [|[pre cap] caps Hp Hc IH]; cbn [flat_map]; [constructor|].
    apply Forall_app; split; [|exact IH].
    unfold parts_of_capture. destruct cap. apply Forall_app; split.
    + destruct pre as [|c p]; [constructor|]. constructor; [exact Hp | constructor].
    + constructor; [exact I | constructor].
  - destruct tail as [|c t]; [constructor|].
    constructor; [exact (no_pair_of_none _ Ht) | constructor].
Qed.

Lemma parse_cmd_unknown now cmd rest :
  ~ In cmd known_commands ->
  parse_cmd now cmd rest = Err (String.append "Unknown command: " cmd).
Proof.
  intros Hn. unfold parse_cmd.
  assert (F : forall w, In w known_commands -> String.eqb cmd w = false).
  { intros w Hw. apply String.eqb_neq. intros ->. exact (Hn Hw). }
  rewrite !F by (unfold known_commands; cbn [In]; intuition).
  reflexivity.
Qed.

(** [parse_args] with no argument is the REPL, and a first argument gives
    the error [Unknown command: cmd] exactly when it is none of the twelve
    command words. *)
Theorem parse_args_unknown_command (now cmd : string) (rest : list string) :
  parse_args now [] = Ok Repl /\
  (parse_args now (cmd :: rest) = Err (String.append "Unknown command: " cmd)
   <-> ~ In cmd known_commands).
Proof.
  split; [reflexivity|]. split.
  - intros H Hin. unfold known_commands in Hin. cbn [In] in Hin.
    repeat (destruct Hin as [<-|Hin]; [cbv in H; discriminate H|]). exact Hin.
  - apply parse_cmd_unknown.
Qed.

(** In the REPL, a line that starts with [!] after its leading white space
    (Unicode white space, as [trim_start] strips it) and whose first word is
    not a command word ends the whole REPL with the error
    [Unknown command: word]: nothing is printed, the state is unchanged and
    no further line is read. *)
Theorem repl_unknown_command_ends_loop (St : Type) now execute query add_history_entry
    save_history (line cmd_str w : text) (words : list text) rest (st : St) out :
  trim_start line = "!"%char :: cmd_str ->
  split_whitespace cmd_str = w :: words ->
  ~ In (string_of_list_ascii w) known_commands ->
  add_history_entry line = Ok tt ->
  repl_loop St now execute query add_history_entry save_history
    (RLOk line :: rest) st out
  = (st, out, Err (String.append "Unknown command: " (string_of_list_ascii w))).
Proof.
  intros Ht Hsplit Hn Hh. cbn [repl_loop]. unfold is_blank.
  rewrite Ht, Hh.
  cbv beta iota zeta. unfold strip_bang.
  destruct (ascii_dec "!"%char "!"%char) as [_|C]; [|congruence].
  rewrite Hsplit. cbn [map]. unfold parse_args. rewrite (parse_cmd_unknown _ _ _ Hn).
  reflexivity.
Qed.


Lemma response_stream_app from_str from_utf8 pre l :
  ~ In (RecvOk None) pre ->
  response_stream from_str from_utf8 (pre ++ l)
  = response_stream from_str from_utf8 pre ++ response_stream from_str from_utf8 l.
Proof.
  induction pre as [|r pre IH]; intros Hn; [reflexivity|].
  cbn [app response_stream].
  pose proof (IH (fun H => Hn (or_intror H))) as IH'.
  destruct (convert_to_option from_utf8 r) as [item|] eqn:E.
  - cbv beta iota. destruct item as [chunk|e].
    + destruct (parse_claude_api_text from_str chunk) as [[s|]|e]; rewrite IH'; reflexivity.
    + rewrite IH'. reflexivity.
  - exfalso. destruct r as [e|[[[b|]|]|]]; try discriminate E. apply Hn; left; reflexivity.
Qed.

Lemma read_chunks_err_mid s1 e0 s2 :
  forall f l, exists e, read_chunks (s1 ++ Err e0 :: s2) f l = Err e.
Proof.
  induction s1 as [|[chunk|e] s1 IH]; intros f l; cbn [app read_chunks].
  - eexists; reflexivity.
  - destruct (push_chars chunk f l) as [f' l']. apply IH.
  - eexists; reflexivity.
Qed.

(** The stream ends at the first [Ok(None)] from the receiver: nothing
    received after it reaches the caller. *)
Theorem response_stream_stops_at_end from_str from_utf8 pre post :
  response_stream from_str from_utf8 (pre ++ RecvOk None :: post)
  = response_stream from_str from_utf8 pre.
Proof.
  induction pre as [|r pre IH]; [reflexivity|]. cbn [app response_stream].
  destruct (convert_to_option from_utf8 r) as [item|]; [|reflexivity]. cbv beta iota.
  destruct item as [chunk|e].
  - destruct (parse_claude_api_text from_str chunk) as [[s|]|e]; rewrite ?IH; reflexivity.
  - rewrite IH. reflexivity.
Qed.

(** Every text the stream yields comes from one of the received events: the
    event's payload, as [convert_to_option] decodes it, is a chunk of type
    [content_block_delta] whose delta has that text. *)
Theorem response_stream_texts_are_deltas from_str from_utf8 recvs s :
  In (Ok s) (response_stream from_str from_utf8 recvs) ->
  exists x chunk r d, In x recvs /\ convert_to_option from_utf8 x = Some (Ok chunk) /\
    from_str chunk = Ok r /\ rsp_type r = "content_block_delta"%string /\
    rsp_delta r = Some d /\ rsp_text d = Some s.
Proof.
  induction recvs as [|x recvs IH]; [intros []|]. cbn [response_stream].
  assert (IH' : In (Ok s) (response_stream from_str from_utf8 recvs) ->
          exists x' chunk r d, In x' (x :: recvs) /\
            convert_to_option from_utf8 x' = Some (Ok chunk) /\
            from_str chunk = Ok r /\ rsp_type r = "content_block_delta"%string /\
            rsp_delta r = Some d /\ rsp_text d = Some s).
  { intros H. destruct (IH H) as (x' & chunk & r & d & Hx & R).
    exists x', chunk, r, d. split; [right; exact Hx | exact R]. }
  clear IH. rename IH' into IH.
  destruct (convert_to_option from_utf8 x) as [[chunk|e]|] eqn:Ex; [| |intros []]; cbv beta iota.
  - destruct (parse_claude_api_text from_str chunk) as [[s'|]|e] eqn:E.
    + intros [H|H]; [|exact (IH H)]. injection H as H; subst s'.
      unfold parse_claude_api_text in E.
      destruct (from_str chunk) as [r|e] eqn:E1; [|discriminate].
      destruct (rsp_delta r) as [d|] eqn:E2; [|discriminate].
      destruct (rsp_text d) as [t|] eqn:E3; [|discriminate].
      destruct (String.eqb (rsp_type r) "content_block_delta") eqn:E4; [|discriminate].
      injection E as E; subst t. apply String.eqb_eq in E4.
      exists x, chunk, r, d. split; [left; reflexivity|]. auto.
    + exact IH.
    + intros [H|H]; [discriminate|exact (IH H)].
  - intros [H|H]; [discriminate|exact (IH H)].
Qed.

(** An event of unknown kind, or a chunk without bytes, is turned into an
    empty text, which [parse_claude_api_text] hands to the JSON decoder; as
    the decoder rejects empty input, such an event makes [handle_query]
    fail, and the stored conversation is left unchanged. *)
Theorem unknown_event_aborts_query from_str from_utf8 fetch db query pre ev rest e0 :
  from_str [] = Err e0 ->
  (ev = Unknown \/ ev = Chunk None) ->
  ~ In (RecvOk None) pre ->
  exists e, handle_query fetch
    (fun _ => Ok (response_stream from_str from_utf8 (pre ++ RecvOk (Some ev) :: rest)))
    db query = (db, Err e).
Proof.
  intros He0 Hev Hn. unfold handle_query. cbv beta.
  destruct (add_user_message fetch db query) as [c1 [u|e]].
  - rewrite (response_stream_app _ _ _ _ Hn).
    assert (E : response_stream from_str from_utf8 (RecvOk (Some ev) :: rest)
                = Err e0 :: response_stream from_str from_utf8 rest).
    { destruct Hev as [-> | ->]; cbn [response_stream convert_to_option];
        unfold parse_claude_api_text; rewrite He0; reflexivity. }
    rewrite E.
    destruct (read_chunks_err_mid (response_stream from_str from_utf8 pre) e0
                (response_stream from_str from_utf8 rest) [] []) as [e ->].
    exists e. reflexivity.
  - exists e. reflexivity.
Qed.

Lemma db_create_loop_found is_dir create_dir_all path :
  forall k, k <= length path ->
  is_dir (".git"%string :: skipn k path) = true ->
  (forall j, j < k -> is_dir (".git"%string :: skipn j path) = false) ->
  is_dir (".claippy"%string :: skipn k path) = true \/
    create_dir_all (".claippy"%string :: skipn k path) = Ok tt ->
  db_create_loop is_dir create_dir_all path = Ok (".claippy"%string :: skipn k path).
Proof.
  induction path as [|a path IH]; intros k Hk Hg Hj Hc.
  - assert (k = 0) as -> by (simpl in Hk; lia). cbn [skipn] in *.
    cbn [db_create_loop]. rewrite Hg.
    destruct Hc as [Hc|Hc]; rewrite Hc; [reflexivity|].
    match goal with |- context [if ?b then _ else _] => destruct b end; reflexivity.
  - destruct k as [|k].
    + cbn [skipn] in *. cbn [db_create_loop]. rewrite Hg.
      destruct Hc as [Hc|Hc]; rewrite Hc; [reflexivity|].
      match goal with |- context [if ?b then _ else _] => destruct b end; reflexivity.
    + pose proof (Hj 0 ltac:(lia)) as H0. cbn [skipn] in *.
      cbn [db_create_loop]. rewrite H0.
      apply IH; [simpl in Hk; lia | exact Hg | | exact Hc].
      intros j Hjk. exact (Hj (S j) ltac:(lia)).
Qed.

Lemma db_create_loop_none is_dir create_dir_all path :
  (forall j, j <= length path -> is_dir (".git"%string :: skipn j path) = false) ->
  db_create_loop is_dir create_dir_all path
  = Err "No .git directory found in any parent directory".
Proof.
  induction path as [|a path IH]; intros Hj; cbn [db_create_loop].
  - pose proof (Hj 0 ltac:(lia)) as H0. cbn [skipn] in H0. rewrite H0. reflexivity.
  - pose proof (Hj 0 ltac:(lia)) as H0. cbn [skipn] in H0. rewrite H0. apply IH. intros j Hjk. exact (Hj (S j) ltac:(simpl; lia)).
Qed.

(** [Db::create] uses the nearest enclosing directory (the current one
    included) that has a [.git] directory: the store is its [.claippy]
    subdirectory, created when missing. *)
Theorem db_create_nearest_git is_dir create_dir_all cwd k :
  k <= length cwd ->
  is_dir (".git"%string :: skipn k cwd) = true ->
  (forall j, j < k -> is_dir (".git"%string :: skipn j cwd) = false) ->
  is_dir (".claippy"%string :: skipn k cwd) = true \/
    create_dir_all (".claippy"%string :: skipn k cwd) = Ok tt ->
  db_create (Ok cwd) is_dir create_dir_all = Ok (".claippy"%string :: skipn k cwd).
Proof. intros. apply db_create_loop_found; assumption. Qed.

(** Without a [.git] directory in the current directory or any parent,
    [Db::create] fails with its error message. *)
Theorem db_create_no_git is_dir create_dir_all cwd :
  (forall j, j <= length cwd -> is_dir (".git"%string :: skipn j cwd) = false) ->
  db_create (Ok cwd) is_dir create_dir_all
  = Err "No .git directory found in any parent directory".
Proof. intros. apply db_create_loop_none; assumption. Qed.

Lemma fs_wf_empty J from_json : fs_wf J from_json ∅.
Proof. split; intros n d; [intros c|]; rewrite lookup_empty; discriminate. Qed.

Lemma untitled_ne_current now : create_id "untitled-conversation" now <> CURRENT_PATH.
Proof. unfold create_id, CURRENT_PATH. simpl. intros H. discriminate H. Qed.

Lemma follow_nonlink J fuel (fs : Fs J) n :
  (forall t, fs !! n <> Some (Link t)) -> follow J fuel fs n = Some n.
Proof.
  intros H. destruct fuel; cbn [follow];
    destruct (fs !! n) as [[d|t|]|] eqn:E; try reflexivity; exfalso; exact (H t eq_refl).
Qed.

Lemma follow_link J f (fs : Fs J) n t :
  fs !! n = Some (Link t) -> follow J (S f) fs n = follow J f fs t.
Proof. intros H. cbn [follow]. rewrite H. reflexivity. Qed.

Lemma follow_insert_file J fuel (fs : Fs J) n d d' x :
  fs !! n = Some (FileE d) -> follow J fuel (<[n := FileE d']> fs) x = follow J fuel fs x.
Proof.
  intros H. revert x. induction fuel as [|f IH]; intros x; cbn [follow];
    destruct (decide (x = n)) as [->|Hne].
  - rewrite lookup_insert_eq, H. reflexivity.
  - rewrite lookup_insert_ne by congruence. reflexivity.
  - rewrite lookup_insert_eq, H. reflexivity.
  - rewrite lookup_insert_ne by congruence.
    destruct (fs !! x) as [[e|t|]|]; try reflexivity. apply IH.
Qed.

Lemma fs_write_keeps J (fs : Fs J) name d k :
  fs !! k <> None -> fst (fs_write J fs name d) !! k <> None.
Proof.
  intros Hk.
  assert (Ins : forall n, (<[n := FileE d]> fs) !! k <> None).
  { intros n. destruct (decide (n = k)) as [->|Hne].
    - rewrite lookup_insert_eq. discriminate.
    - rewrite lookup_insert_ne by exact Hne. exact Hk. }
  unfold fs_write.
  destruct (follow J MAX_LINKS fs name) as [n|]; cbn [fst]; [|exact Hk].
  destruct (fs !! n) as [[e|t|]|]; [apply Ins | | exact Hk |];
    destruct (parent_check J fs n); first [apply Ins | exact Hk].
Qed.

(** A write that succeeds puts the file at the path the name resolves to;
    one that fails leaves the store as it was. *)
Lemma fs_write_cases J (fs fs' : Fs J) name d r :
  fs_write J fs name d = (fs', r) ->
  (r = Ok tt /\ exists n, follow J MAX_LINKS fs name = Some n /\ fs' = <[n := FileE d]> fs) \/
  (exists e, r = Err e /\ fs' = fs).
Proof.
  unfold fs_write. destruct (follow J MAX_LINKS fs name) as [n|] eqn:Ef.
  - destruct (fs !! n) as [[e|t|]|];
      [| destruct (parent_check J fs n) | | destruct (parent_check J fs n)];
      intros H; injection H as <- <-;
      first [left; split; [reflexivity | exists n; split; reflexivity]
            | right; eexists; split; reflexivity].
  - intros H. injection H as <- <-. right. eexists; split; reflexivity.
Qed.

Lemma parent_rev_none r : ~ In "/"%char r -> parent_rev r = None.
Proof.
  induction r as [|c r IH]; intros Hn; [reflexivity|]. cbn [parent_rev].
  destruct (ascii_dec c "/"%char) as [->|_]; [exfalso; apply Hn; left; reflexivity|].
  apply IH. intros H. apply Hn. right. exact H.
Qed.

Lemma parent_none name : ~ In "/"%char (list_ascii_of_string name) -> parent name = None.
Proof.
  intros Hn. unfold parent. rewrite parent_rev_none; [reflexivity|].
  intros H. apply Hn. apply in_rev. exact H.
Qed.

Lemma parent_check_single J (fs : Fs J) name :
  ~ In "/"%char (list_ascii_of_string name) -> parent_check J fs name = Ok tt.
Proof. intros Hn. unfold parent_check. rewrite (parent_none name Hn). reflexivity. Qed.

Lemma untitled_single now :
  ~ In "/"%char (list_ascii_of_string now) ->
  ~ In "/"%char (list_ascii_of_string (create_id "untitled-conversation" now)).
Proof.
  intros Hn H. unfold create_id in H. cbn in H.
  repeat (destruct H as [H|H]; [discriminate H|]). exact (Hn H).
Qed.

Lemma create_conversation_eexist J to_json (fs : Fs J) cid :
  fs !! CURRENT_PATH <> None ->
  exists e, create_conversation J to_json fs cid
            = (fst (write_conversation J to_json fs (empty cid)), Err e).
Proof.
  intros Hc. unfold create_conversation.
  destruct (write_conversation J to_json fs (empty cid)) as [fs1 [u|e]] eqn:Ew.
  - assert (Hc1 : fs1 !! CURRENT_PATH <> None).
    { unfold write_conversation in Ew.
      pose proof (fs_write_keeps J fs (id (empty cid)) (to_json (empty cid)) _ Hc) as K.
      rewrite Ew in K. exact K. }
    unfold fs_symlink. destruct (fs1 !! CURRENT_PATH) eqn:E; [|congruence].
    eexists; reflexivity.
  - eexists; reflexivity.
Qed.

Lemma linked_store J (fs : Fs J) u d :
  u <> CURRENT_PATH ->
  follow J MAX_LINKS (<[CURRENT_PATH := Link u]> (<[u := FileE d]> fs)) CURRENT_PATH = Some u /\
  (<[CURRENT_PATH := Link u]> (<[u := FileE d]> fs)) !! u = Some (FileE d).
Proof.
  intros Hu.
  assert (L : (<[CURRENT_PATH := Link u]> (<[u := FileE d]> fs)) !! u = Some (FileE d)).
  { rewrite lookup_insert_ne by congruence. apply lookup_insert_eq. }
  split; [|exact L].
  unfold MAX_LINKS. rewrite (follow_link J 39 _ CURRENT_PATH u) by apply lookup_insert_eq.
  apply follow_nonlink. intros t. rewrite L. discriminate.
Qed.

Lemma read_current_create J to_json from_json now (fs : Fs J) :
  path_exists J fs CURRENT_PATH = false -> fs !! CURRENT_PATH = None ->
  fs_write J fs (create_id "untitled-conversation" now)
    (to_json (empty (create_id "untitled-conversation" now)))
  = (<[create_id "untitled-conversation" now :=
         FileE (to_json (empty (create_id "untitled-conversation" now)))]> fs, Ok tt) ->
  read_current_conversation J to_json from_json now fs
  = (<[CURRENT_PATH := Link (create_id "untitled-conversation" now)]>
       (<[create_id "untitled-conversation" now :=
            FileE (to_json (empty (create_id "untitled-conversation" now)))]> fs),
     from_json (to_json (empty (create_id "untitled-conversation" now)))).
Proof.
  intros Ep Ec Hw. pose proof (untitled_ne_current now) as Hne.
  unfold read_current_conversation, read_conversation.
  rewrite Ep, String.eqb_refl. cbv beta iota zeta.
  unfold create_conversation, write_conversation. cbn [id empty].
  set (u := create_id "untitled-conversation" now) in *.
  rewrite Hw. cbv beta iota zeta.
  unfold fs_symlink. rewrite lookup_insert_ne by congruence. rewrite Ec.
  rewrite parent_check_single by (vm_compute; intros [H|[H|[H|[H|[H|[H|[H|[]]]]]]]]; discriminate H).
  cbv beta iota zeta.
  unfold fs_read. destruct (linked_store J fs u (to_json (empty u)) Hne) as [F L].
  rewrite F, L. reflexivity.
Qed.

Lemma read_current_missing_with_current J to_json from_json now (fs : Fs J) :
  path_exists J fs CURRENT_PATH = false -> fs !! CURRENT_PATH <> None ->
  exists fs1 e, read_current_conversation J to_json from_json now fs = (fs1, Err e).
Proof.
  intros Ep Ec. unfold read_current_conversation, read_conversation.
  rewrite Ep, String.eqb_refl. cbv beta iota zeta.
  destruct (create_conversation_eexist J to_json fs (create_id "untitled-conversation" now) Ec)
    as [e ->].
  eexists _, _; reflexivity.
Qed.

Lemma read_current_ok J to_json from_json now (fs fs1 : Fs J) c :
  (forall c, from_json (to_json c) = Ok c) ->
  fs_wf J from_json fs ->
  read_current_conversation J to_json from_json now fs = (fs1, Ok c) ->
  exists d, follow J MAX_LINKS fs1 CURRENT_PATH = Some (id c) /\
            fs1 !! id c = Some (FileE d) /\ from_json d = Ok c.
Proof.
  intros Hrt [Wf Wl] H.
  destruct (path_exists J fs CURRENT_PATH) eqn:Ep.
  - unfold read_current_conversation, read_conversation in H. rewrite Ep in H.
    cbv beta iota zeta in H. unfold fs_read in H.
    destruct (follow J MAX_LINKS fs CURRENT_PATH) as [n|] eqn:Ef; [|discriminate].
    destruct (fs !! n) as [[d|t|]|] eqn:En; try discriminate.
    injection H as <- Hd. exists d. rewrite (Wf n d c En Hd). auto.
  - destruct (fs !! CURRENT_PATH) as [x|] eqn:Ec.
    + destruct (read_current_missing_with_current J to_json from_json now fs Ep)
        as (fs' & e & E); [rewrite Ec; discriminate|].
      rewrite E in H. discriminate.
    + pose proof (untitled_ne_current now) as Hne.
      set (u := create_id "untitled-conversation" now) in *.
      destruct (fs_write J fs u (to_json (empty u))) as [fs' r] eqn:Ew.
      destruct (fs_write_cases J fs fs' u _ r Ew) as [[-> (n & Fn & ->)] | (e & -> & ->)].
      * rewrite (follow_nonlink J MAX_LINKS fs u) in Fn
          by (intros t Ht; exact (Hne (Wl _ _ Ht))).
        injection Fn as <-.
        rewrite read_current_create in H; [|exact Ep|exact Ec|exact Ew].
        rewrite Hrt in H. injection H as <- <-.
        destruct (linked_store J fs u (to_json (empty u)) Hne) as [F L].
        eexists. split; [exact F|]. split; [exact L|]. apply Hrt.
      * unfold read_current_conversation, read_conversation in H.
        rewrite Ep, String.eqb_refl in H. cbv beta iota zeta in H.
        unfold create_conversation, write_conversation in H. cbn [id empty] in H.
        fold u in H. rewrite Ew in H. discriminate H.
Qed.

Lemma read_current_after_write J to_json from_json now (fs fs1 : Fs J) c c' :
  (forall c, from_json (to_json c) = Ok c) ->
  fs_wf J from_json fs ->
  read_current_conversation J to_json from_json now fs = (fs1, Ok c) ->
  id c' = id c ->
  write_conversation J to_json fs1 c' = (<[id c := FileE (to_json c')]> fs1, Ok tt) /\
  read_current_conversation J to_json from_json now (<[id c := FileE (to_json c')]> fs1)
  = (<[id c := FileE (to_json c')]> fs1, Ok c').
Proof.
  intros Hrt Hwf Hr Hid.
  destruct (read_current_ok _ _ _ _ _ _ _ Hrt Hwf Hr) as (d & F & L & _).
  split.
  - unfold write_conversation, fs_write. rewrite Hid.
    rewrite (follow_nonlink J MAX_LINKS fs1 (id c)) by (intros t; rewrite L; discriminate).
    rewrite L. reflexivity.
  - assert (F2 : follow J MAX_LINKS (<[id c := FileE (to_json c')]> fs1) CURRENT_PATH
                 = Some (id c)).
    { rewrite (follow_insert_file J MAX_LINKS fs1 (id c) d (to_json c') CURRENT_PATH L).
      exact F. }
    unfold read_current_conversation, read_conversation, path_exists, fs_read.
    rewrite F2, lookup_insert_eq. cbv beta iota zeta.
    rewrite F2, lookup_insert_eq. cbv beta iota zeta. rewrite Hrt. reflexivity.
Qed.

Lemma add_contexts_fold paths : forall c,
  id (fst (add_workspace_contexts c paths)) = id c /\
  seen_context (fst (add_workspace_contexts c paths)) = seen_context c /\
  unseen_context c ⊆ unseen_context (fst (add_workspace_contexts c paths)) /\
  (forall p, In p paths ->
     WorkspaceContext.from p ∈ unseen_context (fst (add_workspace_contexts c paths))).
Proof.
  unfold add_workspace_contexts. cbn [fst].
  induction paths as [|p ps IH]; intros c; cbn [fold_left].
  - split; [reflexivity|]. split; [reflexivity|]. split; [set_solver | intros _ []].
  - destruct (IH (set_contexts c ({[WorkspaceContext.from p]} ∪ unseen_context c)
                    (seen_context c))) as (H1 & H2 & H3 & H4).
    unfold set_contexts in H1, H2, H3. cbn [id seen_context unseen_context] in H1, H2, H3.
    split; [exact H1|]. split; [exact H2|]. split; [set_solver|].
    intros q [<-|Hq]; [set_solver | exact (H4 q Hq)].
Qed.

(** On an empty store, reading the current conversation creates the empty
    conversation [untitled-conversation-<now>], points [current] at it and
    returns it.  [now] is [Utc::now().to_rfc3339()], made of digits and
    [-T:.+], so it holds no [/]. *)
Theorem read_current_conversation_fresh J to_json from_json now :
  ~ In "/"%char (list_ascii_of_string now) ->
  (forall c, from_json (to_json c) = Ok c) ->
  read_current_conversation J to_json from_json now ∅
  = (<[CURRENT_PATH := Link (create_id "untitled-conversation" now)]>
       (<[create_id "untitled-conversation" now :=
            FileE (to_json (empty (create_id "untitled-conversation" now)))]> ∅),
     Ok (empty (create_id "untitled-conversation" now))).
Proof.
  intros Hnow Hrt. rewrite read_current_create, Hrt; [reflexivity| | |].
  - unfold path_exists. rewrite follow_nonlink by (intros t; rewrite lookup_empty; discriminate).
    rewrite lookup_empty. reflexivity.
  - apply lookup_empty.
  - unfold fs_write.
    rewrite follow_nonlink by (intros t; rewrite lookup_empty; discriminate).
    rewrite lookup_empty, parent_check_single by exact (untitled_single now Hnow).
    reflexivity.
Qed.

(** [create_conversation] fails once a [current] entry exists (the symbolic
    link cannot be created over it), after it has written the new empty
    conversation: so does every [new] command but the first. *)
Theorem create_conversation_fails_if_current_exists J to_json (fs : Fs J) cid :
  fs !! CURRENT_PATH <> None ->
  exists e, create_conversation J to_json fs cid
            = (fst (write_conversation J to_json fs (empty cid)), Err e).
Proof. apply create_conversation_eexist. Qed.

(** When [current] is a link to a conversation file that is missing, every
    read of the current conversation fails. *)
Theorem read_current_dangling_link_fails J to_json from_json now (fs : Fs J) t :
  fs !! CURRENT_PATH = Some (Link t) -> fs !! t = None ->
  exists fs1 e, read_current_conversation J to_json from_json now fs = (fs1, Err e).
Proof.
  intros Hc Ht. apply read_current_missing_with_current; [|rewrite Hc; discriminate].
  unfold path_exists, MAX_LINKS. rewrite (follow_link J 39 fs CURRENT_PATH t Hc).
  rewrite follow_nonlink by (intros t'; rewrite Ht; discriminate).
  rewrite Ht. reflexivity.
Qed.


(** The read-modify-write cycle of the commands: once the current
    conversation [c] has been read, writing any [c'] with the same id
    succeeds and the next read of the current conversation returns [c']. *)
Theorem read_modify_write_current J to_json from_json now (fs fs1 : Fs J) c c' :
  (forall c, from_json (to_json c) = Ok c) ->
  fs_wf J from_json fs ->
  read_current_conversation J to_json from_json now fs = (fs1, Ok c) ->
  id c' = id c ->
  snd (write_conversation J to_json fs1 c') = Ok tt /\
  read_current_conversation J to_json from_json now (fst (write_conversation J to_json fs1 c'))
  = (fst (write_conversation J to_json fs1 c'), Ok c').
Proof.
  intros Hrt Hwf Hr Hid.
  destruct (read_current_after_write J to_json from_json now fs fs1 c c' Hrt Hwf Hr Hid)
    as [W R].
  rewrite W. split; [reflexivity | exact R].
Qed.

(** After [add] succeeds, [ls] lists every added path. *)
Theorem add_then_list_shows_paths J to_json from_json now (fs fs2 : Fs J) paths msg :
  (forall c, from_json (to_json c) = Ok c) ->
  fs_wf J from_json fs ->
  handle_add_workspace_contexts J to_json from_json now fs paths = (fs2, Ok msg) ->
  exists c', list_workspace_context J to_json from_json now fs2
             = (fs2, Ok (CmdOutput.Message (context_display c'))) /\
             forall p, In p paths -> In p (context_lines c').
Proof.
  intros Hrt Hwf H. unfold handle_add_workspace_contexts in H.
  destruct (read_current_conversation J to_json from_json now fs) as [fs1 [c|e]] eqn:Er;
    [|discriminate].
  destruct (add_contexts_fold paths c) as (Hid & _ & _ & Hin).
  destruct (read_current_after_write J to_json from_json now fs fs1 c
              (fst (add_workspace_contexts c paths)) Hrt Hwf Er Hid) as [W R].
  unfold add_workspace_contexts in H, W, R, Hin. cbn [fst] in W, R, Hin.
  cbv beta iota zeta in H. rewrite W in H. injection H as <- _.
  exists (fold_left (fun c raw => set_contexts c ({[WorkspaceContext.from raw]} ∪ unseen_context c)
                                   (seen_context c)) paths c).
  split.
  - unfold list_workspace_context. rewrite R. reflexivity.
  - intros p Hp. unfold context_lines.
    rewrite <- (to_string_from p). apply in_map.
    apply in_or_app. right. apply list_elem_of_In. apply elem_of_elements. exact (Hin p Hp).
Qed.

(** [clear] through the store: once it succeeds, the current conversation
    read back has the same id, no messages, no seen context, and all of its
    former context pending again. *)
Theorem execute_clear_then_read J to_json from_json now (fs fs2 : Fs J) msg :
  (forall c, from_json (to_json c) = Ok c) ->
  fs_wf J from_json fs ->
  execute_clear J to_json from_json now fs = (fs2, Ok msg) ->
  exists c, read_current_conversation J to_json from_json now fs = (fst (read_current_conversation J to_json from_json now fs), Ok c) /\
    read_current_conversation J to_json from_json now fs2
    = (fs2, Ok {| id := id c; unseen_context := unseen_context c ∪ seen_context c;
                  seen_context := ∅; messages := [] |}) /\
    msg = CmdOutput.Message (String.append "Cleared conversation " (id c)).
Proof.
  intros Hrt Hwf H. unfold execute_clear in H.
  destruct (read_current_conversation J to_json from_json now fs) as [fs1 [c|e]] eqn:Er;
    [|discriminate].
  destruct (read_current_after_write J to_json from_json now fs fs1 c (fst (clear c))
              Hrt Hwf Er eq_refl) as [W R].
  unfold clear in H, W, R. cbn [fst] in W, R. cbv beta iota zeta in H.
  rewrite W in H. injection H as <- <-.
  exists c. split; [reflexivity|]. split; [exact R | reflexivity].
Qed.

Lemma fs_wf_single (c : Conversation) :
  id c <> CURRENT_PATH ->
  fs_wf Conversation Ok (<[CURRENT_PATH := Link (id c)]> (<[id c := FileE c]> ∅)).
Proof.
  intros Hne. split.
  - intros n d c' H Hd. injection Hd as Hd. subst c'.
    destruct (decide (n = CURRENT_PATH)) as [->|H1].
    { rewrite lookup_insert_eq in H. discriminate. }
    rewrite lookup_insert_ne in H by congruence.
    destruct (decide (n = id c)) as [->|H2].
    { rewrite lookup_insert_eq in H. injection H as H. subst. reflexivity. }
    rewrite lookup_insert_ne, lookup_empty in H by congruence. discriminate.
  - intros n t H.
    destruct (decide (n = CURRENT_PATH)) as [->|H1]; [reflexivity|].
    rewrite lookup_insert_ne in H by congruence.
    destruct (decide (n = id c)) as [->|H2].
    { rewrite lookup_insert_eq in H. discriminate. }
    rewrite lookup_insert_ne, lookup_empty in H by congruence. discriminate.
Qed.

Definition ideographic_space : text := map ascii_of_nat [227; 128; 128].

Definition repl_demo_line : text :=
  ideographic_space ++ s2l "!foo" ++ ideographic_space ++ s2l "bar".

Lemma repl_unknown_command_ends_loop_witness :
  trim_start repl_demo_line = "!"%char :: (s2l "foo" ++ ideographic_space ++ s2l "bar") /\
  split_whitespace (s2l "foo" ++ ideographic_space ++ s2l "bar") = s2l "foo" :: [s2l "bar"] /\
  ~ In (string_of_list_ascii (s2l "foo")) known_commands /\
  repl_loop unit "t0" (fun _ s => (s, Ok CmdOutput.Done)) (fun _ s => (s, Ok tt))
    (fun _ => Ok tt) (Ok tt) (RLOk repl_demo_line :: []) tt []
  = (tt, [], Err (String.append "Unknown command: " (string_of_list_ascii (s2l "foo")))).
Proof.
  assert (H3 : ~ In (string_of_list_ascii (s2l "foo")) known_commands).
  { intros H. vm_compute in H. repeat (destruct H as [H|H]; [discriminate H|]). exact H. }
  split; [vm_compute; reflexivity|]. split; [vm_compute; reflexivity|]. split; [exact H3|].
  apply (repl_unknown_command_ends_loop unit "t0" _ _ (fun _ => Ok tt) (Ok tt)
           repl_demo_line (s2l "foo" ++ ideographic_space ++ s2l "bar") (s2l "foo") [s2l "bar"]).
  - vm_compute. reflexivity.
  - vm_compute. reflexivity.
  - exact H3.
  - reflexivity.
Defined.


Definition demo_from_str (t : text) : result RspChunk :=
  match t with
  | [] => Err "EOF while parsing a value"
  | _ => Ok {| rsp_type := "content_block_delta"; rsp_delta := Some {| rsp_text := Some t |} |}
  end.

Lemma response_stream_texts_are_deltas_witness :
  In (Ok (s2l "hi"))
    (response_stream demo_from_str Ok [RecvOk (Some (Chunk (Some (s2l "hi")))); RecvOk None]) /\
  exists x chunk r d, In x [RecvOk (Some (Chunk (Some (s2l "hi")))); RecvOk None] /\
    convert_to_option Ok x = Some (Ok chunk) /\
    demo_from_str chunk = Ok r /\ rsp_type r = "content_block_delta"%string /\
    rsp_delta r = Some d /\ rsp_text d = Some (s2l "hi").
Proof.
  assert (H : In (Ok (s2l "hi"))
    (response_stream demo_from_str Ok [RecvOk (Some (Chunk (Some (s2l "hi")))); RecvOk None])).
  { vm_compute. left. reflexivity. }
  split; [exact H|]. exact (response_stream_texts_are_deltas demo_from_str Ok _ _ H).
Defined.

Lemma unknown_event_aborts_query_witness :
  demo_from_str [] = Err "EOF while parsing a value" /\
  (Unknown = Unknown \/ Unknown = Chunk None) /\
  ~ In (RecvOk None) [RecvOk (Some (Chunk (Some (s2l "Hel"))))] /\
  exists e, handle_query (fun _ => Ok []) (fun _ => Ok (response_stream demo_from_str Ok
      ([RecvOk (Some (Chunk (Some (s2l "Hel"))))] ++
       RecvOk (Some Unknown) :: [RecvOk (Some (Chunk (Some (s2l "lo"))))])))
    (empty "c1") (s2l "hi") = (empty "c1", Err e).
Proof.
  assert (H3 : ~ In (RecvOk None) [RecvOk (Some (Chunk (Some (s2l "Hel"))))]).
  { intros [H|[]]. discriminate H. }
  split; [reflexivity|]. split; [left; reflexivity|]. split; [exact H3|].
  apply (unknown_event_aborts_query demo_from_str Ok (fun _ => Ok []) (empty "c1") (s2l "hi")
           _ Unknown _ "EOF while parsing a value"); [reflexivity | left; reflexivity | exact H3].
Defined.

Definition demo_is_dir (p : list string) : bool :=
  bool_decide (p = [".git"; "repo"]%string).

Lemma db_create_nearest_git_witness :
  1 <= length ["src"; "repo"]%string /\
  demo_is_dir (".git"%string :: skipn 1 ["src"; "repo"]%string) = true /\
  (forall j, j < 1 -> demo_is_dir (".git"%string :: skipn j ["src"; "repo"]%string) = false) /\
  db_create (Ok ["src"; "repo"]%string) demo_is_dir (fun _ => Ok tt)
  = Ok (".claippy"%string :: skipn 1 ["src"; "repo"]%string).
Proof.
  assert (H3 : forall j, j < 1 ->
            demo_is_dir (".git"%string :: skipn j ["src"; "repo"]%string) = false).
  { intros j Hj. assert (j = 0) as -> by lia. vm_compute. reflexivity. }
  split; [simpl; lia|]. split; [vm_compute; reflexivity|]. split; [exact H3|].
  apply db_create_nearest_git; [simpl; lia | vm_compute; reflexivity | exact H3 |].
  right. reflexivity.
Defined.

Lemma db_create_no_git_witness :
  (forall j, j <= length ["src"; "repo"]%string ->
     (fun _ : list string => false) (".git"%string :: skipn j ["src"; "repo"]%string) = false) /\
  db_create (Ok ["src"; "repo"]%string) (fun _ => false) (fun _ => Ok tt)
  = Err "No .git directory found in any parent directory".
Proof.
  split; [intros; reflexivity|].
  apply db_create_no_git. intros; reflexivity.
Defined.

Lemma read_current_conversation_fresh_witness :
  ~ In "/"%char (list_ascii_of_string "t0") /\
  (forall c : Conversation, Ok c = Ok c) /\
  read_current_conversation Conversation (fun c => c) Ok "t0" ∅
  = (<[CURRENT_PATH := Link (create_id "untitled-conversation" "t0")]>
       (<[create_id "untitled-conversation" "t0" :=
            FileE (empty (create_id "untitled-conversation" "t0"))]> ∅),
     Ok (empty (create_id "untitled-conversation" "t0"))).
Proof.
  assert (Hnow : ~ In "/"%char (list_ascii_of_string "t0")).
  { intros [H|[H|[]]]; discriminate H. }
  split; [exact Hnow|]. split; [intros; reflexivity|].
  apply (read_current_conversation_fresh Conversation (fun c => c) Ok "t0"); [exact Hnow|].
  intros; reflexivity.
Defined.

Definition demo_conv : Conversation :=
  {| id := "c1"; unseen_context := {[WorkspaceContext.File "a.rs"]};
     seen_context := {[WorkspaceContext.Url "https://x.org"]};
     messages := [user_message (s2l "hi")] |}.

Definition demo_store : Fs Conversation :=
  <[CURRENT_PATH := Link "c1"]> (<[ "c1"%string := FileE demo_conv ]> ∅).

Lemma clear_then_user_message_resends_witness :
  (forall w, w ∈ seen_context demo_conv ∪ unseen_context demo_conv ->
     (fun _ : WorkspaceContext => @Ok text (s2l "data")) w = Ok (s2l "data")) /\
  add_user_message (fun _ => Ok (s2l "data")) (fst (clear demo_conv)) (s2l "more") =
    ({| id := "c1"; unseen_context := ∅;
        seen_context := unseen_context demo_conv ∪ seen_context demo_conv;
        messages := [user_message (concat (map (fun w => context_block w (s2l "data") ++ [nl])
                         (elements (unseen_context demo_conv ∪ seen_context demo_conv)))
                       ++ s2l "more")] |}, Ok tt).
Proof.
  split; [intros; reflexivity|].
  apply (clear_then_user_message_resends (fun _ => Ok (s2l "data")) (fun _ => s2l "data")
           demo_conv).
  intros w _. reflexivity.
Defined.

(** A conversation id holding a [/] names a path below a directory of
    [.claippy] that the program never creates: the write fails. *)
Example nested_id_write_fails :
  snd (write_conversation Conversation (fun c => c) demo_store (empty "a/b-t0"))
  = Err "ENOENT".
Proof. vm_compute. reflexivity. Qed.

Lemma create_conversation_fails_if_current_exists_witness :
  demo_store !! CURRENT_PATH <> None /\
  exists e, create_conversation Conversation (fun c => c) demo_store "c2"
            = (fst (write_conversation Conversation (fun c => c) demo_store (empty "c2")), Err e).
Proof.
  assert (H : demo_store !! CURRENT_PATH <> None).
  { intros H. vm_compute in H. discriminate H. }
  split; [exact H|]. exact (create_conversation_fails_if_current_exists _ _ demo_store "c2" H).
Defined.

Lemma read_current_dangling_link_fails_witness :
  (<[CURRENT_PATH := Link "gone"]> ∅ : Fs Conversation) !! CURRENT_PATH = Some (Link "gone") /\
  (<[CURRENT_PATH := Link "gone"]> ∅ : Fs Conversation) !! "gone"%string = None /\
  exists fs1 e, read_current_conversation Conversation (fun c => c) Ok "t0"
                  (<[CURRENT_PATH := Link "gone"]> ∅) = (fs1, Err e).
Proof.
  split; [vm_compute; reflexivity|]. split; [vm_compute; reflexivity|].
  apply (read_current_dangling_link_fails Conversation (fun c => c) Ok "t0" _ "gone");
    vm_compute; reflexivity.
Defined.


Lemma demo_store_wf : fs_wf Conversation Ok demo_store.
Proof. apply (fs_wf_single demo_conv). intros H. discriminate H. Qed.

Lemma read_modify_write_current_witness :
  (forall c : Conversation, Ok c = Ok c) /\
  fs_wf Conversation Ok demo_store /\
  read_current_conversation Conversation (fun c => c) Ok "t0" demo_store
  = (demo_store, Ok demo_conv) /\
  id (set_messages demo_conv []) = id demo_conv /\
  snd (write_conversation Conversation (fun c => c) demo_store (set_messages demo_conv [])) = Ok tt /\
  read_current_conversation Conversation (fun c => c) Ok "t0"
    (fst (write_conversation Conversation (fun c => c) demo_store (set_messages demo_conv [])))
  = (fst (write_conversation Conversation (fun c => c) demo_store (set_messages demo_conv [])),
     Ok (set_messages demo_conv [])).
Proof.
  assert (H3 : read_current_conversation Conversation (fun c => c) Ok "t0" demo_store
               = (demo_store, Ok demo_conv)) by (vm_compute; reflexivity).
  split; [intros; reflexivity|]. split; [exact demo_store_wf|]. split; [exact H3|].
  split; [reflexivity|].
  apply (read_modify_write_current Conversation (fun c => c) Ok "t0" demo_store demo_store
           demo_conv (set_messages demo_conv []));
    [intros; reflexivity | exact demo_store_wf | exact H3 | reflexivity].
Defined.

Lemma add_then_list_shows_paths_witness :
  (forall c : Conversation, Ok c = Ok c) /\
  fs_wf Conversation Ok demo_store /\
  handle_add_workspace_contexts Conversation (fun c => c) Ok "t0" demo_store
    ["b.rs"; "https://y.org"]%string
  = (fst (handle_add_workspace_contexts Conversation (fun c => c) Ok "t0" demo_store
            ["b.rs"; "https://y.org"]%string),
     Ok (CmdOutput.Message (String.append "Added context:"
           (String.append nl_s (join nl_s ["b.rs"; "https://y.org"]%string))))) /\
  exists c', list_workspace_context Conversation (fun c => c) Ok "t0"
               (fst (handle_add_workspace_contexts Conversation (fun c => c) Ok "t0" demo_store
                       ["b.rs"; "https://y.org"]%string))
             = (fst (handle_add_workspace_contexts Conversation (fun c => c) Ok "t0" demo_store
                       ["b.rs"; "https://y.org"]%string),
                Ok (CmdOutput.Message (context_display c'))) /\
             forall p, In p ["b.rs"; "https://y.org"]%string -> In p (context_lines c').
Proof.
  assert (H3 : handle_add_workspace_contexts Conversation (fun c => c) Ok "t0" demo_store
                 ["b.rs"; "https://y.org"]%string
               = (fst (handle_add_workspace_contexts Conversation (fun c => c) Ok "t0" demo_store
                         ["b.rs"; "https://y.org"]%string),
                  Ok (CmdOutput.Message (String.append "Added context:"
                        (String.append nl_s (join nl_s ["b.rs"; "https://y.org"]%string))))))
    by (vm_compute; reflexivity).
  split; [intros; reflexivity|]. split; [exact demo_store_wf|]. split; [exact H3|].
  exact (add_then_list_shows_paths Conversation (fun c => c) Ok "t0" demo_store _ _ _
           (fun c => eq_refl) demo_store_wf H3).
Defined.

Lemma execute_clear_then_read_witness :
  (forall c : Conversation, Ok c = Ok c) /\
  fs_wf Conversation Ok demo_store /\
  execute_clear Conversation (fun c => c) Ok "t0" demo_store
  = (fst (execute_clear Conversation (fun c => c) Ok "t0" demo_store),
     Ok (CmdOutput.Message (String.append "Cleared conversation " "c1"))) /\
  exists c, read_current_conversation Conversation (fun c => c) Ok "t0" demo_store
            = (fst (read_current_conversation Conversation (fun c => c) Ok "t0" demo_store), Ok c) /\
    read_current_conversation Conversation (fun c => c) Ok "t0"
      (fst (execute_clear Conversation (fun c => c) Ok "t0" demo_store))
    = (fst (execute_clear Conversation (fun c => c) Ok "t0" demo_store),
       Ok {| id := id c; unseen_context := unseen_context c ∪ seen_context c;
             seen_context := ∅; messages := [] |}) /\
    CmdOutput.Message (String.append "Cleared conversation " "c1")
    = CmdOutput.Message (String.append "Cleared conversation " (id c)).
Proof.
  assert (H3 : execute_clear Conversation (fun c => c) Ok "t0" demo_store
               = (fst (execute_clear Conversation (fun c => c) Ok "t0" demo_store),
                  Ok (CmdOutput.Message (String.append "Cleared conversation " "c1"))))
    by (vm_compute; reflexivity).
  split; [intros; reflexivity|]. split; [exact demo_store_wf|]. split; [exact H3|].
  exact (execute_clear_then_read Conversation (fun c => c) Ok "t0" demo_store _ _
           (fun c => eq_refl) demo_store_wf H3).
Defined.
